(** * The Unity bridge connection manager (McpUnity) and the
      get_console_logs tool, as a shallow embedding.

    The event loop is single-threaded: every handler of the class runs to
    completion before the next one starts.  A handler is therefore a
    function on the state of the object, and the event loop is a list of
    events folded over that state.  What the object does to the outside
    (settling a promise, arming or clearing a timer, creating, closing or
    writing to a socket) is appended to a trace kept in the state.  A call
    that waits at [await this.connect()] is kept in the state until the
    promise it waits for settles; if that never happens, the call never goes
    on.  Calls to the logger are not part of the model. *)

From Stdlib Require Import List String Bool Arith ZArith QArith Lia.
Import ListNotations.
Set Warnings "-register-all".
Local Open Scope string_scope.
Local Open Scope nat_scope.
Local Open Scope list_scope.

(** ** JavaScript values *)

Module Js.

(** The values that travel through the bridge: what JSON.parse can return,
    plus [undefined], which is what reading a missing property gives. *)
Inductive Json : Type :=
| JUndefined
| JNull
| JBool (b : bool)
| JNum (q : Q)
| JStr (s : string)
| JArr (items : list Json)
| JObj (fields : list (string * Json)).

(** Truthiness, as used by [if (v)], [v || d] and [!v]. *)
Definition truthy (v : Json) : bool :=
  match v with
  | JUndefined | JNull => false
  | JBool b => b
  | JNum q => negb (Qeq_bool q 0)
  | JStr s => negb (String.eqb s EmptyString)
  | JArr _ | JObj _ => true
  end.

(** [a || b]. *)
Definition or_else (a b : Json) : Json := if truthy a then a else b.

Fixpoint lookup_field (k : string) (fs : list (string * Json)) : Json :=
  match fs with
  | [] => JUndefined
  | (k', v) :: rest => if String.eqb k k' then v else lookup_field k rest
  end.

(** [v.k] for the property names the program reads (id, error, result,
    message, details, success, data, logs).  Reading a property of [null]
    or [undefined] raises a TypeError ([None]); a primitive or an array has
    none of these properties. *)
Definition prop (v : Json) (k : string) : option Json :=
  match v with
  | JUndefined | JNull => None
  | JObj fs => Some (lookup_field k fs)
  | _ => Some JUndefined
  end.

End Js.
Import Js.

(** ** Errors (utils/errors: McpUnityError and ErrorType) *)

Inductive ErrorType : Type := CONNECTION | TIMEOUT | TOOL_EXECUTION.

(** [new McpUnityError(type, message, details)]: the three constructor
    arguments, kept as they are passed. *)
Record McpUnityError : Type := mkError {
  err_type : ErrorType;
  err_message : Json;
  err_details : Json
}.

(** What an awaited call or a try block produces. *)
Inductive Thrown : Type :=
| ThrownMcp (e : McpUnityError)
| ThrownTypeError
| ThrownSyntaxError.

(** ** The state of a McpUnity object *)

Inductive ReadyState : Type := CONNECTING | OPEN | CLOSING | CLOSED.

Definition ReadyState_eqb (a b : ReadyState) : bool :=
  match a, b with
  | CONNECTING, CONNECTING | OPEN, OPEN | CLOSING, CLOSING | CLOSED, CLOSED => true
  | _, _ => false
  end.

(** The WebSocket held in [this.ws]: its transport state and the options it
    was created with. *)
Record Socket : Type := mkSocket {
  readyState : ReadyState;
  header_client_name : string;   (* headers['X-Client-Name'] *)
  origin : string
}.

(** A value of [pendingRequests]: the resolve/reject pair of one promise
    (named by the promise's number) and the handle of its timeout. *)
Record PendingRequest : Type := mkPending {
  waiter : nat;
  timeout : nat
}.

(** A timeout armed by [sendRequest]: the closure captures [requestId] and
    the [reject] of the promise being built. *)
Record Timer : Type := mkTimer {
  timer_id : nat;
  timer_delay : Z;
  timer_request : string;
  timer_waiter : nat
}.

(** The request given to [sendRequest] and the message put on the wire. *)
Record Request : Type := mkRequest {
  req_id : option string;
  req_method : string;
  req_params : Json
}.

Record Message : Type := mkMessage {
  msg_id : string;
  msg_method : string;
  msg_params : Json
}.

Inductive Effect : Type :=
| Resolved (p : nat) (v : Json)               (* resolve(v) of promise p *)
| Rejected (p : nat) (e : McpUnityError)      (* reject(e) of promise p *)
| SetTimeout (t : nat) (ms : Z)
| ClearTimeout (t : nat)
| WsNew (client_name_header origin_option : string)
| WsSend (m : Message)
| WsClose
| WsTerminate.

(** A call of the object that is suspended at [await this.connect(...)]:
    the rest of [sendRequest] (with the value [uuidv4()] will give and
    whether [this.ws.send] will raise, both fixed by the environment, and
    the number of the call's promise), or the rest of [start]. *)
Inductive Continuation : Type :=
| ResumeSendRequest (request : Request) (uuid : string)
    (sendThrows : option string) (p : nat)
| ResumeStart.

(** The object and what the event loop holds for it.  A promise made by
    [connect] has a number of its own; [handlers] is the promise that the
    onopen and onerror of [this.ws] settle, [connectionTimeouts] lists the
    promises whose connection timeout is armed, and [awaiting] the calls
    suspended on a promise of [connect]. *)
Record State : Type := mkState {
  ws : option Socket;
  pendingRequests : list (string * PendingRequest);  (* Map, insertion order *)
  timers : list Timer;                               (* armed timeouts *)
  handlers : option nat;
  connectionTimeouts : list nat;
  awaiting : list (nat * Continuation);
  nextTimer : nat;
  nextPromise : nat;
  nextConnect : nat;
  trace : list Effect                                (* oldest first *)
}.

Definition REQUEST_TIMEOUT : Z := 10000%Z.

Definition init : State :=
  {| ws := None; pendingRequests := []; timers := [];
     handlers := None; connectionTimeouts := []; awaiting := [];
     nextTimer := 0; nextPromise := 0; nextConnect := 0; trace := [] |}.

(** ** The Map behind [pendingRequests]

    A JavaScript Map keeps its entries in insertion order; [set] on a key
    that is present replaces the value in place. *)

Module PMap.

Definition t := list (string * PendingRequest).

Fixpoint get (k : string) (m : t) : option PendingRequest :=
  match m with
  | [] => None
  | (k', v) :: rest => if String.eqb k k' then Some v else get k rest
  end.

Definition has (k : string) (m : t) : bool :=
  match get k m with Some _ => true | None => false end.

Fixpoint set (k : string) (v : PendingRequest) (m : t) : t :=
  match m with
  | [] => [(k, v)]
  | (k', v') :: rest =>
      if String.eqb k k' then (k, v) :: rest else (k', v') :: set k v rest
  end.

Definition delete (k : string) (m : t) : t :=
  filter (fun kv => negb (String.eqb k (fst kv))) m.

Definition keys (m : t) : list string := List.map fst m.

End PMap.

(** ** Primitive actions on the state *)

Definition emit (es : list Effect) (s : State) : State :=
  {| ws := ws s; pendingRequests := pendingRequests s; timers := timers s;
     handlers := handlers s; connectionTimeouts := connectionTimeouts s;
     awaiting := awaiting s;
     nextTimer := nextTimer s; nextPromise := nextPromise s;
     nextConnect := nextConnect s;
     trace := trace s ++ es |}.

Definition set_ws (w : option Socket) (s : State) : State :=
  {| ws := w; pendingRequests := pendingRequests s; timers := timers s;
     handlers := handlers s; connectionTimeouts := connectionTimeouts s;
     awaiting := awaiting s;
     nextTimer := nextTimer s; nextPromise := nextPromise s;
     nextConnect := nextConnect s;
     trace := trace s |}.

Definition set_pending (m : PMap.t) (s : State) : State :=
  {| ws := ws s; pendingRequests := m; timers := timers s;
     handlers := handlers s; connectionTimeouts := connectionTimeouts s;
     awaiting := awaiting s;
     nextTimer := nextTimer s; nextPromise := nextPromise s;
     nextConnect := nextConnect s;
     trace := trace s |}.

Definition set_timers (ts : list Timer) (s : State) : State :=
  {| ws := ws s; pendingRequests := pendingRequests s; timers := ts;
     handlers := handlers s; connectionTimeouts := connectionTimeouts s;
     awaiting := awaiting s;
     nextTimer := nextTimer s; nextPromise := nextPromise s;
     nextConnect := nextConnect s;
     trace := trace s |}.

(** The onopen and onerror of [this.ws] are set ([Some c]: they settle the
    promise [c] of [connect]) or set to null. *)
Definition set_handlers (h : option nat) (s : State) : State :=
  {| ws := ws s; pendingRequests := pendingRequests s; timers := timers s;
     handlers := h; connectionTimeouts := connectionTimeouts s;
     awaiting := awaiting s;
     nextTimer := nextTimer s; nextPromise := nextPromise s;
     nextConnect := nextConnect s;
     trace := trace s |}.

Definition set_connectionTimeouts (cs : list nat) (s : State) : State :=
  {| ws := ws s; pendingRequests := pendingRequests s; timers := timers s;
     handlers := handlers s; connectionTimeouts := cs;
     awaiting := awaiting s;
     nextTimer := nextTimer s; nextPromise := nextPromise s;
     nextConnect := nextConnect s;
     trace := trace s |}.

Definition set_awaiting (ks : list (nat * Continuation)) (s : State) : State :=
  {| ws := ws s; pendingRequests := pendingRequests s; timers := timers s;
     handlers := handlers s; connectionTimeouts := connectionTimeouts s;
     awaiting := ks;
     nextTimer := nextTimer s; nextPromise := nextPromise s;
     nextConnect := nextConnect s;
     trace := trace s |}.

(** [new Promise(...)] in [connect]: the counter of these promises moves
    on. *)
Definition next_connect (s : State) : State :=
  {| ws := ws s; pendingRequests := pendingRequests s; timers := timers s;
     handlers := handlers s; connectionTimeouts := connectionTimeouts s;
     awaiting := awaiting s;
     nextTimer := nextTimer s; nextPromise := nextPromise s;
     nextConnect := S (nextConnect s);
     trace := trace s |}.

Definition disarm (t : nat) (ts : list Timer) : list Timer :=
  filter (fun tm => negb (Nat.eqb t (timer_id tm))) ts.

(** [clearTimeout(t)] *)
Definition clearTimeout (t : nat) (s : State) : State :=
  emit [ClearTimeout t] (set_timers (disarm t (timers s)) s).

(** [setTimeout(handler, ms)] for the handler of [sendRequest]; returns the
    new handle. *)
Definition setTimeout (requestId : string) (p : nat) (ms : Z) (s : State)
  : nat * State :=
  let t := nextTimer s in
  (t, emit [SetTimeout t ms]
        {| ws := ws s; pendingRequests := pendingRequests s;
           timers := timers s ++ [mkTimer t ms requestId p];
           handlers := handlers s;
           connectionTimeouts := connectionTimeouts s;
           awaiting := awaiting s;
           nextTimer := S t; nextPromise := nextPromise s;
           nextConnect := nextConnect s;
           trace := trace s |}).

(** Promises are numbered in the order of the calls that create them: a
    call that is running builds promise [nextPromise], and the counter moves
    on when the call returns. *)
Definition next_promise (s : State) : State :=
  {| ws := ws s; pendingRequests := pendingRequests s; timers := timers s;
     handlers := handlers s; connectionTimeouts := connectionTimeouts s;
     awaiting := awaiting s;
     nextTimer := nextTimer s; nextPromise := S (nextPromise s);
     nextConnect := nextConnect s;
     trace := trace s |}.

Definition resolve (p : nat) (v : Json) (s : State) : State :=
  emit [Resolved p v] s.

Definition reject (p : nat) (e : McpUnityError) (s : State) : State :=
  emit [Rejected p e] s.

Definition pdelete (k : string) (s : State) : State :=
  set_pending (PMap.delete k (pendingRequests s)) s.

Definition pset (k : string) (v : PendingRequest) (s : State) : State :=
  set_pending (PMap.set k v (pendingRequests s)) s.

(** ** The methods of McpUnity *)

(** [get isConnected] *)
Definition isConnected (s : State) : bool :=
  match ws s with
  | Some w => ReadyState_eqb (readyState w) OPEN
  | None => false
  end.

Definition connection_closed : McpUnityError :=
  mkError CONNECTION (JStr "Connection closed") JUndefined.

(** The loop of [disconnect] over [pendingRequests.entries()]: one round
    per entry of the table. *)
Fixpoint reject_all (entries : list (string * PendingRequest)) (s : State)
  : State :=
  match entries with
  | [] => s
  | (id, request) :: rest =>
      reject_all rest
        (pdelete id
           (reject (waiter request) connection_closed
              (clearTimeout (timeout request) s)))
  end.

(** [disconnect()]: the handlers of the socket are set to null, the socket
    is closed, the reference is cleared and every pending request is
    rejected.  [terminate()] and [close()] may raise; the method catches
    that, and the state is the same either way.  The connection timeout
    that [connect] armed for the socket is not cleared. *)
Definition disconnect (s : State) : State :=
  match ws s with
  | None => s
  | Some w =>
      let s0 := set_handlers None s in
      let s1 :=
        match readyState w with
        | CONNECTING => emit [WsTerminate] s0
        | OPEN => emit [WsClose] s0
        | _ => s0
        end in
      let s2 := set_ws None s1 in
      reject_all (pendingRequests s2) s2
  end.

(** [clientName || ''] for an optional string argument. *)
Definition label_or_empty (clientName : option string) : string :=
  match clientName with
  | Some n => n
  | None => EmptyString
  end.

(** The executor of the promise that [connect] returns, whose number is
    [nextConnect]: [this.ws] is a new socket, a connection timeout is
    armed, and the socket's onopen and onerror are set; all of them settle
    this promise. *)
Definition open_socket (l : string) (s : State) : State :=
  let c := nextConnect s in
  next_connect
    (set_connectionTimeouts (connectionTimeouts s ++ [c])
       (set_handlers (Some c)
          (set_ws (Some (mkSocket CONNECTING l l)) s))).

(** [connect(clientName)] up to the point where its promise waits for
    the socket.  When the object is connected the promise is resolved at
    once and nothing else happens. *)
Definition connect_begin (clientName : option string) (s : State) : State :=
  if isConnected s then s
  else
    let s1 := disconnect s in
    let l := label_or_empty clientName in
    emit [WsNew l l] (open_socket l s1).

(** [reconnect()]: nobody waits for the promise of its [connect()]. *)
Definition reconnect (s : State) : State :=
  connect_begin None (disconnect s).

Definition set_readyState (rs : ReadyState) (s : State) : State :=
  match ws s with
  | Some w => set_ws (Some (mkSocket rs (header_client_name w) (origin w))) s
  | None => s
  end.

Definition connection_failed (message : string) : McpUnityError :=
  mkError CONNECTION
    (JStr ("Connection failed: " ++
           (if String.eqb message EmptyString then "Unknown error" else message))%string)
    JUndefined.

Definition connection_timeout : McpUnityError :=
  mkError CONNECTION (JStr "Connection timeout") JUndefined.

(** [clearTimeout(connectionTimeout)] in the onopen and onerror that settle
    the promise [c]. *)
Definition clearConnectionTimeout (c : nat) (s : State) : State :=
  set_connectionTimeouts
    (filter (fun c' => negb (Nat.eqb c c')) (connectionTimeouts s)) s.

(** The current call suspends on the promise [c] of [connect]. *)
Definition suspend (c : nat) (k : Continuation) (s : State) : State :=
  set_awaiting (awaiting s ++ [(c, k)]) s.

(** [stop()] *)
Definition stop (s : State) : State := disconnect s.

(** [pendingRequests.has(v)] for an arbitrary value: the keys are strings,
    and a Map compares keys without conversion. *)
Definition has_value (v : Json) (m : PMap.t) : bool :=
  match v with
  | JStr k => PMap.has k m
  | _ => false
  end.

Definition get_value (v : Json) (m : PMap.t) : option PendingRequest :=
  match v with
  | JStr k => PMap.get k m
  | _ => None
  end.

Definition delete_value (v : Json) (s : State) : State :=
  match v with
  | JStr k => pdelete k s
  | _ => s
  end.

(** The body of the [try] of [handleMessage]; [parsed] is what
    [JSON.parse(data)] gives, [None] when it raises.  The result is the
    state when the block is left and what it raised, if anything. *)
Definition handleMessage_try (parsed : option Json) (s : State)
  : State * option Thrown :=
  match parsed with
  | None => (s, Some ThrownSyntaxError)
  | Some response =>
      match prop response "id" with
      | None => (s, Some ThrownTypeError)
      | Some id =>
          if truthy id && has_value id (pendingRequests s) then
            match get_value id (pendingRequests s) with
            | None => (s, Some ThrownTypeError)
            | Some request =>
                let s1 := clearTimeout (timeout request) s in
                let s2 := delete_value id s1 in
                match prop response "error" with
                | None => (s2, Some ThrownTypeError)
                | Some error =>
                    if truthy error then
                      match prop error "message", prop error "details" with
                      | Some message, Some details =>
                          (reject (waiter request)
                             (mkError TOOL_EXECUTION
                                (or_else message (JStr "Unknown error"))
                                details) s2, None)
                      | _, _ => (s2, Some ThrownTypeError)
                      end
                    else
                      match prop response "result" with
                      | Some result => (resolve (waiter request) result s2, None)
                      | None => (s2, Some ThrownTypeError)
                      end
                end
            end
          else (s, None)
      end
  end.

(** [handleMessage(data)]: the [catch] logs whatever was raised; the second
    component is what leaves the method. *)
Definition handleMessage (parsed : option Json) (s : State)
  : State * option Thrown :=
  match handleMessage_try parsed s with
  | (s', _) => (s', None)
  end.

Definition not_connected : McpUnityError :=
  mkError CONNECTION (JStr "Not connected to Unity") JUndefined.

Definition send_failed (message : string) : McpUnityError :=
  mkError CONNECTION (JStr ("Send failed: " ++ message)%string) JUndefined.

Definition timed_out : McpUnityError :=
  mkError TIMEOUT (JStr "Request timed out") JUndefined.

(** The function given to [new Promise] in [sendRequest].  [sendThrows] is
    [Some m] when [this.ws.send] raises an error with message [m]. *)
Definition sendRequest_executor (requestId : string) (message : Message)
  (p : nat) (sendThrows : option string) (s : State) : State :=
  if match ws s with None => true | Some _ => negb (isConnected s) end then
    reject p not_connected s
  else
    let '(t, s1) := setTimeout requestId p REQUEST_TIMEOUT s in
    let s2 := pset requestId (mkPending p t) s1 in
    match sendThrows with
    | None => emit [WsSend message] s2
    | Some m => reject p (send_failed m) (pdelete requestId (clearTimeout t s2))
    end.

(** [request.id || uuidv4()]; [uuid] is what [uuidv4()] returns. *)
Definition choose_id (request : Request) (uuid : string) : string :=
  match req_id request with
  | Some i => if String.eqb i EmptyString then uuid else i
  | None => uuid
  end.

(** The part of [sendRequest(request)] after the connect-if-needed step,
    for the call whose promise is [p].  [failed] is [Some e] when the
    awaited [connect] rejected with [e]: the [await] raises and the call's
    promise is rejected with the same error. *)
Definition sendRequest_resume (request : Request) (uuid : string)
  (sendThrows : option string) (p : nat) (failed : option McpUnityError)
  (s : State) : State :=
  match failed with
  | Some e => reject p e s
  | None =>
      let requestId := choose_id request uuid in
      let message :=
        mkMessage requestId (req_method request) (req_params request) in
      sendRequest_executor requestId message p sendThrows s
  end.

(** The call [sendRequest(request)].  Its promise has the number
    [nextPromise].  On an open connection it goes on at once; otherwise it
    calls [connect()] and waits for that promise. *)
Definition sendRequest (request : Request) (uuid : string)
  (sendThrows : option string) (s : State) : State :=
  let p := nextPromise s in
  next_promise
    (if negb (isConnected s) then
       suspend (nextConnect s) (ResumeSendRequest request uuid sendThrows p)
         (connect_begin None s)
     else sendRequest_resume request uuid sendThrows p None s).

(** The call [start(clientName)]: it waits for [connect(clientName)]
    unless the object is connected. *)
Definition start (clientName : option string) (s : State) : State :=
  if isConnected s then s
  else suspend (nextConnect s) ResumeStart (connect_begin clientName s).

(** A suspended call goes on: the promise it waited for resolved ([None])
    or rejected.  [start] catches the rejection and disconnects. *)
Definition resume (k : Continuation) (failed : option McpUnityError)
  (s : State) : State :=
  match k with
  | ResumeSendRequest request uuid sendThrows p =>
      sendRequest_resume request uuid sendThrows p failed s
  | ResumeStart =>
      match failed with
      | Some _ => disconnect s
      | None => s
      end
  end.

(** The promise [c] of [connect] is resolved or rejected; the call that
    waits for it, if there is one, goes on right after the handler that
    settled it: its continuation is a job of the promise, and the jobs of
    promises run before the event loop takes the next event.  Settling a
    promise again, or one that nobody waits for, does nothing. *)
Definition settle (c : nat) (failed : option McpUnityError) (s : State)
  : State :=
  match find (fun a => Nat.eqb c (fst a)) (awaiting s) with
  | Some (_, k) =>
      resume k failed
        (set_awaiting
           (filter (fun a => negb (Nat.eqb c (fst a))) (awaiting s)) s)
  | None => s
  end.

(** The handler given to [setTimeout] in [sendRequest]. *)
Definition timeout_handler (tm : Timer) (s : State) : State :=
  let s1 :=
    if PMap.has (timer_request tm) (pendingRequests s) then
      reject (timer_waiter tm) timed_out (pdelete (timer_request tm) s)
    else s in
  reconnect s1.

(** The timer with handle [t] fires.  A timer that is not armed (never set,
    cleared, or already fired) does not fire. *)
Definition fire (t : nat) (s : State) : State :=
  match find (fun tm => Nat.eqb t (timer_id tm)) (timers s) with
  | None => s
  | Some tm => timeout_handler tm (set_timers (disarm t (timers s)) s)
  end.

(** ** The event loop *)

(** What can happen to a McpUnity object: a call from a collaborator, an
    event of the current socket, or a timer of the event loop. *)
Inductive Event : Type :=
| CallStart (clientName : option string)
| CallConnect (clientName : option string)
| CallStop
| CallDisconnect
| CallReconnect
| CallSendRequest (request : Request) (uuid : string)
    (sendThrows : option string)
| OnOpen                                  (* ws.onopen *)
| OnMessage (parsed : option Json)        (* ws.onmessage *)
| OnError (rs : ReadyState) (message : string)  (* ws.onerror(err) *)
| OnClose                                 (* ws.onclose *)
| OnConnectionTimeout (c : nat)           (* a timeout set by connect *)
| Transport (rs : ReadyState)             (* the transport changes state *)
| TimerFires (t : nat).                   (* a timeout set by sendRequest *)

(** The handlers of a socket are detached when it is dropped, so socket
    events reach the object only through the socket in [this.ws].  The
    connection timeout of [connect] looks at [this.ws] when it fires, which
    may be a later socket than the one it was armed for. *)
Definition exec (ev : Event) (s : State) : State :=
  match ev with
  | CallStart c => start c s
  | CallConnect c => connect_begin c s
  | CallStop => stop s
  | CallDisconnect => disconnect s
  | CallReconnect => reconnect s
  | CallSendRequest r u st => sendRequest r u st s
  | OnOpen =>
      match ws s, handlers s with
      | Some w, Some c =>
          match readyState w with
          | CONNECTING =>
              settle c None (clearConnectionTimeout c (set_readyState OPEN s))
          | _ => s
          end
      | _, _ => s
      end
  | OnMessage parsed =>
      match ws s with
      | Some _ => fst (handleMessage parsed s)
      | None => s
      end
  | OnError rs message =>
      match ws s, handlers s with
      | Some _, Some c =>
          settle c (Some (connection_failed message))
            (disconnect (clearConnectionTimeout c (set_readyState rs s)))
      | _, _ => s
      end
  | OnClose =>
      match ws s with
      | Some _ => disconnect (set_readyState CLOSED s)
      | None => s
      end
  | OnConnectionTimeout c =>
      if existsb (Nat.eqb c) (connectionTimeouts s) then
        let s0 := clearConnectionTimeout c s in
        match ws s0 with
        | Some w =>
            match readyState w with
            | CONNECTING => settle c (Some connection_timeout) (disconnect s0)
            | _ => s0
            end
        | None => s0
        end
      else s
  | Transport rs => set_readyState rs s
  | TimerFires t => fire t s
  end.

Fixpoint run (evs : list Event) (s : State) : State :=
  match evs with
  | [] => s
  | ev :: rest => run rest (exec ev s)
  end.

(** The states the object can be in: those some sequence of events leads
    to from a fresh object. *)
Definition reachable (s : State) : Prop := exists evs, s = run evs init.

(** ** Reading the trace *)

Definition settles (p : nat) (e : Effect) : bool :=
  match e with
  | Resolved q _ | Rejected q _ => Nat.eqb p q
  | _ => false
  end.

(** How many times resolve or reject of promise [p] was called. *)
Definition settle_count (p : nat) (tr : list Effect) : nat :=
  List.length (filter (settles p) tr).

Definition is_WsNew (e : Effect) : bool :=
  match e with WsNew _ _ => true | _ => false end.

Definition is_WsSend (e : Effect) : bool :=
  match e with WsSend _ => true | _ => false end.

Definition armed (t : nat) (s : State) : bool :=
  existsb (fun tm => Nat.eqb t (timer_id tm)) (timers s).

(** The part of the trace an operation added. *)
Definition added (before after : State) : list Effect :=
  skipn (List.length (trace before)) (trace after).

(** * Vocabulary of the statements *)

Definition drained (e : string * PendingRequest) : list Effect :=
  [ClearTimeout (timeout (snd e)); Rejected (waiter (snd e)) connection_closed].

(** The state [disconnect] starts its loop from. *)
Definition closing (w : Socket) (s : State) : State :=
  set_ws None
    match readyState w with
    | CONNECTING => emit [WsTerminate] (set_handlers None s)
    | OPEN => emit [WsClose] (set_handlers None s)
    | _ => set_handlers None s
    end.

Definition closes (w : Socket) : list Effect :=
  match readyState w with
  | CONNECTING => [WsTerminate]
  | OPEN => [WsClose]
  | _ => []
  end.

Definition wf (s : State) : Prop := ws s = None -> pendingRequests s = [].

(** An operation that keeps the socket and adds no entry keeps [wf]. *)
Definition shrinks (s s' : State) : Prop :=
  ws s' = ws s /\
  forall kv, In kv (pendingRequests s') -> In kv (pendingRequests s).

Definition example_request (id : string) : Request :=
  mkRequest (Some id) "get_console_logs" (JObj []).

(** Two requests, "A" and "B", sent on a connection that opened. *)
Definition two_pending : State :=
  run [CallSendRequest (example_request "A") "u" None; OnOpen;
       CallSendRequest (example_request "B") "u" None] init.

(** ** How an operation may change the state

    [awaited p s]: a [sendRequest] call with promise [p] is suspended. *)
Definition awaited (p : nat) (s : State) : Prop :=
  exists c r u st, In (c, ResumeSendRequest r u st p) (awaiting s).

(** [p] is the promise of a call that has not started or is suspended. *)
Definition unstarted (p : nat) (s : State) : Prop :=
  nextPromise s <= p \/ awaited p s.

(** [refs p s]: promise [p] can still be settled from [s]: a table entry or
    an armed timer holds its resolve/reject pair, or its call has not
    started or is suspended. *)
Definition refs (p : nat) (s : State) : Prop :=
  (exists kv, In kv (pendingRequests s) /\ waiter (snd kv) = p) \/
  (exists tm, In tm (timers s) /\ timer_waiter tm = p) \/
  unstarted p s.

(** [evolves s0 s]: [s] comes from [s0] by arming timers and adding entries
    only for promises whose call had not gone on in [s0], and by settling
    only promises that [s0] could settle. *)
Record evolves (s0 s : State) : Prop := mkEvolves {
  ev_timers : forall tm, In tm (timers s) ->
      In tm (timers s0) \/
      (timer_delay tm = REQUEST_TIMEOUT /\ unstarted (timer_waiter tm) s0);
  ev_pending : forall kv, In kv (pendingRequests s) ->
      In kv (pendingRequests s0) \/ unstarted (waiter (snd kv)) s0;
  ev_awaiting : forall p, awaited p s -> unstarted p s0;
  ev_trace : exists es, trace s = trace s0 ++ es /\
      forall e p, In e es -> settles p e = true -> refs p s0;
  ev_promise : nextPromise s0 <= nextPromise s
}.

(** The state in which the timeout handler calls [reconnect] when the
    request is still in the table. *)
Definition timed_out_state (t : nat) (tm : Timer) (s : State) : State :=
  reject (timer_waiter tm) timed_out
    (pdelete (timer_request tm) (set_timers (disarm t (timers s)) s)).

(** One request, "A", sent on a connection that opened; its timeout has
    the handle 0. *)
Definition one_pending : State :=
  run [CallSendRequest (example_request "A") "u" None; OnOpen] init.

Definition reply_result (id : string) (result : Json) : Json :=
  JObj [("id", JStr id); ("result", result)].

(** Two callers send a request with the identifier "X" on an open
    connection, and the peer answers "X" once. *)
Definition same_id_twice : list Event :=
  [CallSendRequest (example_request "X") "u" None; OnOpen;
   CallSendRequest (example_request "X") "u" None;
   OnMessage (Some (reply_result "X" (JBool true)))].

(** ** Handles and promise numbers are fresh

    Everything but the executor of [sendRequest] only removes entries and
    timers, and only a call that suspends or goes on changes the list of
    suspended calls.  The handlers and connection timeouts that come into
    being belong to promises of [connect] that are new. *)
Record narrows (s s' : State) : Prop := mkNarrows {
  nr_pending : forall kv, In kv (pendingRequests s') -> In kv (pendingRequests s);
  nr_timers : forall tm, In tm (timers s') -> In tm (timers s);
  nr_nextTimer : nextTimer s' = nextTimer s;
  nr_nextPromise : nextPromise s' = nextPromise s;
  nr_awaiting : awaiting s' = awaiting s;
  nr_nextConnect : nextConnect s <= nextConnect s';
  nr_handlers : handlers s' = handlers s \/ handlers s' = None \/
      exists c, handlers s' = Some c /\ nextConnect s <= c;
  nr_connectionTimeouts : forall c, In c (connectionTimeouts s') ->
      In c (connectionTimeouts s) \/ nextConnect s <= c
}.

(** Table entries and armed timers belong to promises that exist and carry
    handles that were handed out. *)
Record bounded (s : State) : Prop := mkBounded {
  bd_pending : forall kv, In kv (pendingRequests s) ->
      waiter (snd kv) < nextPromise s /\ timeout (snd kv) < nextTimer s;
  bd_timers : forall tm, In tm (timers s) ->
      timer_waiter tm < nextPromise s /\ timer_id tm < nextTimer s
}.

(** The promises of the suspended [sendRequest] calls. *)
Definition awaited_promises (ks : list (nat * Continuation)) : list nat :=
  flat_map (fun a => match snd a with
                     | ResumeSendRequest _ _ _ p => [p]
                     | ResumeStart => []
                     end) ks.

(** A suspended [sendRequest] call has a promise that exists, no other
    suspended call has the same promise, and neither a table entry nor a
    timer holds it; a suspended call waits for a [connect] that was
    started. *)
Record calm (s : State) : Prop := mkCalm {
  cl_exists : forall p, In p (awaited_promises (awaiting s)) -> p < nextPromise s;
  cl_once : NoDup (awaited_promises (awaiting s));
  cl_pending : forall p kv, In p (awaited_promises (awaiting s)) ->
      In kv (pendingRequests s) -> waiter (snd kv) <> p;
  cl_timers : forall p tm, In p (awaited_promises (awaiting s)) ->
      In tm (timers s) -> timer_waiter tm <> p;
  cl_connect : forall a, In a (awaiting s) -> fst a < nextConnect s
}.

(** The promise of [connect] that the handler run for the event settles,
    how ([None]: resolved), and the state the handler leaves, in which the
    call that waits for the promise goes on. *)
Definition handler_settles (ev : Event) (s : State)
  : option (nat * option McpUnityError * State) :=
  match ev with
  | OnOpen =>
      match ws s, handlers s with
      | Some w, Some c =>
          match readyState w with
          | CONNECTING =>
              Some (c, None, clearConnectionTimeout c (set_readyState OPEN s))
          | _ => None
          end
      | _, _ => None
      end
  | OnError rs message =>
      match ws s, handlers s with
      | Some _, Some c =>
          Some (c, Some (connection_failed message),
                disconnect (clearConnectionTimeout c (set_readyState rs s)))
      | _, _ => None
      end
  | OnConnectionTimeout c =>
      if existsb (Nat.eqb c) (connectionTimeouts s) then
        match ws s with
        | Some w =>
            match readyState w with
            | CONNECTING =>
                Some (c, Some connection_timeout,
                      disconnect (clearConnectionTimeout c s))
            | _ => None
            end
        | None => None
        end
      else None
  | _ => None
  end.

(** The suspended call that waits for the promise [c] of [connect]. *)
Definition waits_for (c : nat) (s : State) : option Continuation :=
  match find (fun a => Nat.eqb c (fst a)) (awaiting s) with
  | Some (_, k) => Some k
  | None => None
  end.

(** What a [sendRequest] call adds to the trace when it goes on in the
    state [s1]. *)
Definition final_effects (failed : option McpUnityError) (s1 : State)
  (p : nat) (m : Message) (st : option string) : list Effect :=
  match failed with
  | Some e => [Rejected p e]
  | None =>
      if isConnected s1 then
        match st with
        | None => [SetTimeout (nextTimer s1) REQUEST_TIMEOUT; WsSend m]
        | Some msg =>
            [SetTimeout (nextTimer s1) REQUEST_TIMEOUT;
             ClearTimeout (nextTimer s1); Rejected p (send_failed msg)]
        end
      else [Rejected p not_connected]
  end.

(** [v.k] where [v] is known not to be null or undefined. *)
Definition field (v : Json) (k : string) : Json :=
  match prop v k with
  | Some x => x
  | None => JUndefined
  end.

(** How [handleMessage] settles the waiter [r] for the reply [response]. *)
Definition reply_settlement (response : Json) (r : PendingRequest) : Effect :=
  let error := field response "error" in
  if truthy error then
    Rejected (waiter r)
      (mkError TOOL_EXECUTION
         (or_else (field error "message") (JStr "Unknown error"))
         (field error "details"))
  else Resolved (waiter r) (field response "result").

(** The message is one [handleMessage] routes to a waiter. *)
Definition routed (parsed : option Json) (s : State) : bool :=
  match parsed with
  | Some response =>
      match prop response "id" with
      | Some id => truthy id && has_value id (pendingRequests s)
      | None => false
      end
  | None => false
  end.

Definition reply_error (id message : string) : Json :=
  JObj [("id", JStr id); ("error", JObj [("message", JStr message)])].

(** The settlement as the sentence of the specification words it: a
    ToolExecution error with the payload's error message and details when
    the reply has an error field, the result field otherwise. *)
Definition stated_reply_settlement (response : Json) (r : PendingRequest)
  : Effect :=
  match response with
  | JObj fs =>
      if existsb (fun kv => String.eqb "error" (fst kv)) fs then
        Rejected (waiter r)
          (mkError TOOL_EXECUTION
             (field (field response "error") "message")
             (field (field response "error") "details"))
      else Resolved (waiter r) (field response "result")
  | _ => Resolved (waiter r) (field response "result")
  end.

(** The request with identifier [id], timeout [t] and promise [p] aside,
    [s'] has the table entries and armed timers of [s], and no other promise
    was settled on the way from [s] to [s']. *)
Definition others_untouched (id : string) (t p : nat) (s s' : State) : Prop :=
  (forall k, k <> id ->
     PMap.get k (pendingRequests s') = PMap.get k (pendingRequests s)) /\
  (forall tm, In tm (timers s) -> timer_id tm <> t -> In tm (timers s')) /\
  (forall q, q <> p -> settle_count q (added s s') = 0).

(** The promise [c] of [connect] can no longer be settled: the onopen and
    onerror that settle it are detached, and its connection timeout is not
    armed. *)
Definition dropped (c : nat) (s : State) : Prop :=
  c < nextConnect s /\ handlers s <> Some c /\ ~ In c (connectionTimeouts s).

(** A second [sendRequest] before the connection of the first is open:
    its [connect] drops the socket the first call waits for.  The new
    socket opens, and the connection timeout of the first [connect] finds
    an open socket when it fires. *)
Definition superseded_connect : list Event :=
  [CallSendRequest (example_request "A") "u" None;
   CallSendRequest (example_request "B") "u" None;
   OnOpen; OnConnectionTimeout 0].

(** A table entry or an armed timer holds the resolve/reject pair of
    promise [p]. *)
Definition held (p : nat) (s : State) : Prop :=
  (exists kv, In kv (pendingRequests s) /\ waiter (snd kv) = p) \/
  (exists tm, In tm (timers s) /\ timer_waiter tm = p).

(** The timeout [sendRequest] arms for the entry it stores under [k]. *)
Definition guard_of (k : string) (r : PendingRequest) : Timer :=
  mkTimer (timeout r) REQUEST_TIMEOUT k (waiter r).

(** What every state of the object satisfies: the keys of the table, the
    handles of the armed timers and the promises they hold are pairwise
    different; every entry has its timeout armed; a promise is settled at
    most once, and not at all while an entry or a timer holds it, while its
    call is suspended, or before it is created. *)
Record inv (s : State) : Prop := mkInv {
  inv_bounded : bounded s;
  inv_calm : calm s;
  inv_keys : NoDup (PMap.keys (pendingRequests s));
  inv_ids : NoDup (List.map timer_id (timers s));
  inv_waiters : NoDup (List.map timer_waiter (timers s));
  inv_guard : forall k r, In (k, r) (pendingRequests s) ->
      In (guard_of k r) (timers s);
  inv_once : forall p, settle_count p (trace s) <= 1;
  inv_done : forall p, held p s -> settle_count p (trace s) = 0;
  inv_awaited : forall p, In p (awaited_promises (awaiting s)) ->
      settle_count p (trace s) = 0;
  inv_future : forall p, nextPromise s <= p -> settle_count p (trace s) = 0
}.

(** The promise [p] exists, was not settled, and nothing holds it: it
    belongs to the call that is running. *)
Definition free (p : nat) (s : State) : Prop :=
  p < nextPromise s /\ settle_count p (trace s) = 0 /\ ~ held p s /\
  ~ In p (awaited_promises (awaiting s)).

(** ** The get_console_logs tool (tools/getConsoleLogsTool.ts)

    A JSON number is modelled by the rational it denotes; rounding of
    floating point numbers is not modelled. *)

Module GetConsoleLogs.

Definition toolName : string := "get_console_logs".

(** [z.number().int()]: the number is whole. *)
Definition is_int (q : Q) : bool :=
  Z.eqb (Z.modulo (Qnum q) (Zpos (Qden q))) 0.

(** [z.enum(["info", "warning", "error"]).optional()] *)
Definition logType_schema (v : Json) : bool :=
  match v with
  | JUndefined => true
  | JStr s => String.eqb s "info" || String.eqb s "warning" || String.eqb s "error"
  | _ => false
  end.

(** [z.number().int().min(0).optional()] *)
Definition offset_schema (v : Json) : bool :=
  match v with
  | JUndefined => true
  | JNum q => is_int q && Qle_bool (inject_Z 0) q
  | _ => false
  end.

(** [z.number().int().min(1).max(500).optional()] *)
Definition limit_schema (v : Json) : bool :=
  match v with
  | JUndefined => true
  | JNum q => is_int q && Qle_bool (inject_Z 1) q && Qle_bool q (inject_Z 500)
  | _ => false
  end.

(** [z.boolean().optional()] *)
Definition includeStackTrace_schema (v : Json) : bool :=
  match v with
  | JUndefined | JBool _ => true
  | _ => false
  end.

(** [paramsSchema], on the properties of the object it is given. *)
Definition paramsSchema (params : list (string * Json)) : bool :=
  logType_schema (lookup_field "logType" params) &&
  offset_schema (lookup_field "offset" params) &&
  limit_schema (lookup_field "limit" params) &&
  includeStackTrace_schema (lookup_field "includeStackTrace" params).

(** A default in a destructuring pattern: used when the property is
    [undefined]. *)
Definition with_default (d v : Json) : Json :=
  match v with
  | JUndefined => d
  | _ => v
  end.

(** The request [toolHandler] passes to [mcpUnity.sendRequest]. *)
Definition request_of (params : list (string * Json)) : Request :=
  let logType := lookup_field "logType" params in
  let offset := with_default (JNum (inject_Z 0)) (lookup_field "offset" params) in
  let limit := with_default (JNum (inject_Z 50)) (lookup_field "limit" params) in
  let includeStackTrace :=
    with_default (JBool true) (lookup_field "includeStackTrace" params) in
  mkRequest None "get_console_logs"
    (JObj [("logType", logType); ("offset", offset); ("limit", limit);
           ("includeStackTrace", includeStackTrace)]).

(** The result of the tool: one text item; [text_of] is the value given to
    [JSON.stringify(_, null, 2)]. *)
Record CallToolResult : Type := mkResult { text_of : Json }.

Definition fetch_failed (response : Json) : McpUnityError :=
  mkError TOOL_EXECUTION
    (or_else (field response "message") (JStr "Failed to fetch logs from Unity"))
    JUndefined.

(** Code that may call [mcpUnity.sendRequest]: given the requests handed
    over so far, it returns them with the ones it hands over itself, and
    what it returns or throws. *)
Definition Calls (A : Type) : Type :=
  list Request -> list Request * (Thrown + A).

Definition ret {A : Type} (a : A) : Calls A := fun log => (log, inr a).

Definition throw {A : Type} (e : Thrown) : Calls A := fun log => (log, inl e).

Definition bind {A B : Type} (m : Calls A) (f : A -> Calls B) : Calls B :=
  fun log =>
    match m log with
    | (log', inl e) => (log', inl e)
    | (log', inr a) => f a log'
    end.

(** [await mcpUnity.sendRequest(request)].  [send] stands for the promise
    of the call: the value it resolves with, or what it rejects with. *)
Definition await_sendRequest (send : Request -> Thrown + Json)
  (request : Request) : Calls Json :=
  fun log => (log ++ [request], send request).

(** [toolHandler(mcpUnity, params)] *)
Definition toolHandler (send : Request -> Thrown + Json)
  (params : list (string * Json)) : Calls CallToolResult :=
  bind (await_sendRequest send (request_of params)) (fun response =>
    match prop response "success" with
    | None => throw ThrownTypeError
    | Some success =>
        if negb (truthy success) then throw (ThrownMcp (fetch_failed response))
        else
          ret (mkResult
                 (or_else (field response "data")
                    (or_else (field response "logs") response)))
    end).

End GetConsoleLogs.

(** * Lemmas and theorems *)

(** ** Facts about the Map *)

Module PMapFacts.
Import PMap.

Lemma has_get k m : has k m = true <-> exists v, get k m = Some v.
Proof.
  unfold has. destruct (get k m) as [v|].
  - split; [eauto | reflexivity].
  - split; [discriminate | intros [v H]; discriminate].
Qed.

Lemma get_In k v m : get k m = Some v -> In (k, v) m.
Proof.
  induction m as [|[k' v'] m IH]; simpl; [discriminate|].
  destruct (String.eqb_spec k k') as [->|Hne].
  - intros [= ->]. now left.
  - intros H. right. auto.
Qed.

Lemma In_has k v m : In (k, v) m -> has k m = true.
Proof.
  unfold has. induction m as [|[k' v'] m IH]; simpl; [tauto|].
  intros [[= -> ->]|H].
  - now rewrite String.eqb_refl.
  - destruct (String.eqb k k'); [reflexivity | auto].
Qed.

Lemma get_delete_same k m : get k (delete k m) = None.
Proof.
  induction m as [|[k' v'] m IH]; simpl; [reflexivity|].
  destruct (String.eqb_spec k k') as [->|Hne]; simpl; [exact IH|].
  destruct (String.eqb_spec k k'); [contradiction | exact IH].
Qed.

Lemma has_delete_same k m : has k (delete k m) = false.
Proof. unfold has. now rewrite get_delete_same. Qed.

Lemma get_delete_other k k' m : k <> k' -> get k' (delete k m) = get k' m.
Proof.
  intros Hne. induction m as [|[k0 v0] m IH]; simpl; [reflexivity|].
  destruct (String.eqb_spec k k0) as [->|Hne0]; simpl.
  - destruct (String.eqb_spec k' k0); [congruence | exact IH].
  - now rewrite IH.
Qed.

Lemma get_set_same k v m : get k (set k v m) = Some v.
Proof.
  induction m as [|[k' v'] m IH]; simpl.
  - now rewrite String.eqb_refl.
  - destruct (String.eqb_spec k k') as [->|Hne]; simpl.
    + now rewrite String.eqb_refl.
    + destruct (String.eqb_spec k k'); [contradiction | exact IH].
Qed.

Lemma get_set_other k k' v m : k <> k' -> get k' (set k v m) = get k' m.
Proof.
  intros Hne. induction m as [|[k0 v0] m IH]; simpl.
  - destruct (String.eqb_spec k' k); [congruence | reflexivity].
  - destruct (String.eqb_spec k k0) as [->|Hne0]; simpl.
    + destruct (String.eqb_spec k' k0); [congruence | reflexivity].
    + now rewrite IH.
Qed.

Lemma In_delete kv k m : In kv (delete k m) <-> In kv m /\ fst kv <> k.
Proof.
  unfold delete. rewrite filter_In.
  destruct (String.eqb_spec k (fst kv)) as [->|Hne]; simpl.
  - split; [intros [_ H]; discriminate | intros [_ H]; congruence].
  - split; intros [H _]; split; auto.
Qed.

(** A key the Map does not hold: deleting it changes nothing. *)
Lemma delete_absent k m : has k m = false -> delete k m = m.
Proof.
  unfold has. induction m as [|[k' v'] m IH]; simpl; [reflexivity|].
  destruct (String.eqb_spec k k') as [->|Hne]; simpl; [discriminate|].
  intros H. now rewrite IH.
Qed.

(** The keys of a Map are pairwise different, whatever is set or deleted. *)
Lemma keys_set k v m :
  NoDup (keys m) -> NoDup (keys (set k v m)) /\
  (forall k', In k' (keys (set k v m)) -> k' = k \/ In k' (keys m)).
Proof.
  unfold keys. induction m as [|[k0 v0] m IH]; simpl; intros Hnd.
  - split; [apply NoDup_cons; [intros [] | apply NoDup_nil] |].
    intros k' [->|[]]. now left.
  - inversion Hnd as [|? ? Hnotin Hnd']; subst.
    destruct (String.eqb_spec k k0) as [->|Hne]; simpl.
    + split; [now apply NoDup_cons |]. intros k' [->|Hin]; auto.
    + destruct (IH Hnd') as [IH1 IH2]. split.
      * apply NoDup_cons; [|exact IH1]. intros Hin.
        destruct (IH2 _ Hin); [congruence | contradiction].
      * intros k' [->|Hin]; [right; now left|].
        destruct (IH2 _ Hin); [now left | right; now right].
Qed.

Lemma keys_delete k m : NoDup (keys m) -> NoDup (keys (delete k m)).
Proof.
  unfold keys, delete. induction m as [|[k0 v0] m IH]; simpl; intros Hnd.
  - constructor.
  - inversion Hnd as [|? ? Hnotin Hnd']; subst.
    destruct (String.eqb k k0); simpl; [|apply NoDup_cons]; auto.
    intros Hin. apply Hnotin. apply in_map_iff in Hin as [kv [<- Hkv]].
    apply in_map. now apply filter_In in Hkv.
Qed.

End PMapFacts.

(** ** What [disconnect] does *)

Lemma reject_all_ws es s : ws (reject_all es s) = ws s.
Proof.
  revert s. induction es as [|[id r] es IH]; intros s; simpl; [reflexivity|].
  now rewrite IH.
Qed.

Lemma reject_all_counters es s :
  nextTimer (reject_all es s) = nextTimer s /\
  nextPromise (reject_all es s) = nextPromise s.
Proof.
  revert s. induction es as [|[id r] es IH]; intros s; simpl; [split; reflexivity|].
  destruct (IH (pdelete id (reject (waiter r) connection_closed
                              (clearTimeout (timeout r) s)))) as [-> ->].
  split; reflexivity.
Qed.

Lemma reject_all_trace es s :
  trace (reject_all es s) = trace s ++ flat_map drained es.
Proof.
  revert s. induction es as [|[id r] es IH]; intros s; simpl.
  - now rewrite app_nil_r.
  - rewrite IH. simpl. now rewrite <- !app_assoc.
Qed.

Lemma reject_all_pending es s kv :
  In kv (pendingRequests (reject_all es s)) <->
  In kv (pendingRequests s) /\ ~ In (fst kv) (PMap.keys es).
Proof.
  revert s. induction es as [|[id r] es IH]; intros s; simpl.
  - tauto.
  - rewrite IH. simpl. rewrite PMapFacts.In_delete. split.
    + intros [[H1 H2] H3]. split; [exact H1|]. intros [H|H]; auto.
    + intros [H1 H2]. repeat split; auto.
Qed.

Lemma reject_all_timers es s tm :
  In tm (timers (reject_all es s)) <->
  In tm (timers s) /\ ~ In (timer_id tm) (List.map (fun e => timeout (snd e)) es).
Proof.
  revert s. induction es as [|[id r] es IH]; intros s; simpl.
  - tauto.
  - rewrite IH. simpl. unfold disarm. rewrite filter_In.
    destruct (Nat.eqb_spec (timeout r) (timer_id tm)) as [E|E]; simpl.
    + split; [intros [[_ H] _]; discriminate | intros [_ H]; tauto].
    + split; [intros [[H _] H']; split; [exact H|tauto] | intros [H H']; tauto].
Qed.

Lemma nil_of_no_member {A} (l : list A) : (forall x, ~ In x l) -> l = [].
Proof. destruct l as [|a l]; [reflexivity|]. intros H. destruct (H a). now left. Qed.

(** The loop of [disconnect], run over the whole table, leaves it empty. *)
Lemma reject_all_empties s :
  pendingRequests (reject_all (pendingRequests s) s) = [].
Proof.
  apply nil_of_no_member. intros kv H.
  apply reject_all_pending in H as [H1 H2]. apply H2.
  unfold PMap.keys. now apply in_map.
Qed.

Lemma disconnect_ws s : ws (disconnect s) = None.
Proof.
  unfold disconnect. destruct (ws s) as [w|] eqn:E; [|exact E].
  rewrite reject_all_ws. reflexivity.
Qed.

Lemma disconnect_not_connected s : isConnected (disconnect s) = false.
Proof. unfold isConnected. now rewrite disconnect_ws. Qed.

Lemma disconnect_some s w :
  ws s = Some w ->
  disconnect s = reject_all (pendingRequests s) (closing w s).
Proof.
  intros E. unfold disconnect, closing. rewrite E.
  destruct (readyState w); reflexivity.
Qed.

Lemma closing_fields w s :
  pendingRequests (closing w s) = pendingRequests s /\
  timers (closing w s) = timers s /\
  nextTimer (closing w s) = nextTimer s /\
  nextPromise (closing w s) = nextPromise s /\
  trace (closing w s) = trace s ++ closes w.
Proof.
  unfold closing, closes.
  destruct (readyState w); simpl; repeat split; auto using app_nil_r.
  all: now rewrite app_nil_r.
Qed.

Lemma disconnect_trace s :
  trace (disconnect s) =
  trace s ++ match ws s with
             | Some w => closes w ++ flat_map drained (pendingRequests s)
             | None => []
             end.
Proof.
  destruct (ws s) as [w|] eqn:E.
  - rewrite (disconnect_some s w E), reject_all_trace.
    destruct (closing_fields w s) as (_ & _ & _ & _ & ->).
    now rewrite app_assoc.
  - unfold disconnect. rewrite E. now rewrite app_nil_r.
Qed.

Lemma disconnect_counters s :
  nextTimer (disconnect s) = nextTimer s /\
  nextPromise (disconnect s) = nextPromise s.
Proof.
  destruct (ws s) as [w|] eqn:E.
  - rewrite (disconnect_some s w E).
    destruct (reject_all_counters (pendingRequests s) (closing w s)) as [-> ->].
    destruct (closing_fields w s) as (_ & _ & -> & -> & _). split; reflexivity.
  - unfold disconnect. rewrite E. split; reflexivity.
Qed.

(** ** The invariant: no socket, no pending request *)

Lemma disconnect_pending s : wf s -> pendingRequests (disconnect s) = [].
Proof.
  intros Hwf. destruct (ws s) as [w|] eqn:E.
  - rewrite (disconnect_some s w E).
    destruct (closing_fields w s) as (Hp & _).
    rewrite <- Hp. apply reject_all_empties.
  - unfold disconnect. rewrite E. auto.
Qed.

Ltac break_match :=
  match goal with
  | |- context [match ?x with _ => _ end] => destruct x eqn:?
  end.

Lemma shrinks_refl s : shrinks s s.
Proof. split; auto. Qed.

Lemma shrinks_trans s1 s2 s3 : shrinks s1 s2 -> shrinks s2 s3 -> shrinks s1 s3.
Proof. intros [A B] [C D]. split; [congruence | auto]. Qed.

Lemma shrinks_wf s s' : shrinks s s' -> wf s -> wf s'.
Proof.
  intros [Hws Hin] Hwf Hnone. apply nil_of_no_member. intros kv Hkv.
  apply Hin in Hkv. rewrite Hwf in Hkv by congruence. exact Hkv.
Qed.

Lemma shrinks_emit es s : shrinks s (emit es s).
Proof. split; auto. Qed.

Lemma shrinks_clearTimeout t s : shrinks s (clearTimeout t s).
Proof. split; auto. Qed.

Lemma shrinks_pdelete k s : shrinks s (pdelete k s).
Proof. split; [reflexivity|]. simpl. intros kv H. now apply PMapFacts.In_delete in H. Qed.

Lemma shrinks_set_timers ts s : shrinks s (set_timers ts s).
Proof. split; auto. Qed.

Create HintDb shrinks.
#[local] Hint Resolve shrinks_refl shrinks_emit shrinks_clearTimeout
  shrinks_pdelete shrinks_set_timers : shrinks.

Lemma shrinks_delete_value v s : shrinks s (delete_value v s).
Proof. destruct v; simpl; auto with shrinks. Qed.

Lemma shrinks_handleMessage_try parsed s :
  shrinks s (fst (handleMessage_try parsed s)).
Proof.
  assert (H : forall r s0, shrinks s (delete_value r (clearTimeout s0 s))).
  { intros r s0. eapply shrinks_trans; [apply shrinks_clearTimeout|].
    apply shrinks_delete_value. }
  unfold handleMessage_try. repeat break_match; simpl; auto with shrinks.
  all: eapply shrinks_trans; [apply H|]; apply shrinks_emit.
Qed.

Lemma handleMessage_fst parsed s :
  fst (handleMessage parsed s) = fst (handleMessage_try parsed s).
Proof. unfold handleMessage. now destruct (handleMessage_try parsed s). Qed.

Lemma wf_handleMessage parsed s : wf s -> wf (fst (handleMessage parsed s)).
Proof.
  rewrite handleMessage_fst. apply shrinks_wf, shrinks_handleMessage_try.
Qed.

Lemma wf_disconnect s : wf s -> wf (disconnect s).
Proof. intros H _. now apply disconnect_pending. Qed.

Lemma wf_set_readyState rs s : wf s -> wf (set_readyState rs s).
Proof.
  unfold wf, set_readyState. destruct (ws s); simpl; [discriminate | auto].
Qed.

Lemma wf_has_socket s w : ws s = Some w -> wf s.
Proof. intros E H. congruence. Qed.

Lemma connect_begin_ws c s :
  ws (connect_begin c s) =
  if isConnected s then ws s
  else Some (mkSocket CONNECTING (label_or_empty c) (label_or_empty c)).
Proof. unfold connect_begin. destruct (isConnected s); reflexivity. Qed.

Lemma isConnected_has_socket s : isConnected s = true -> exists w, ws s = Some w.
Proof. unfold isConnected. destruct (ws s); [eauto | discriminate]. Qed.

Lemma wf_connect_begin c s : wf (connect_begin c s).
Proof.
  destruct (isConnected s) eqn:E.
  - destruct (isConnected_has_socket s E) as [w Hw].
    apply (wf_has_socket _ w). unfold connect_begin. now rewrite E.
  - eapply wf_has_socket. rewrite connect_begin_ws, E. reflexivity.
Qed.

Lemma wf_reconnect s : wf (reconnect s).
Proof. apply wf_connect_begin. Qed.

Lemma wf_same s s' :
  ws s' = ws s -> pendingRequests s' = pendingRequests s -> wf s -> wf s'.
Proof. unfold wf. intros -> ->. auto. Qed.

Lemma wf_clearConnectionTimeout c s : wf s -> wf (clearConnectionTimeout c s).
Proof. now apply wf_same. Qed.

Lemma wf_suspend c k s : wf s -> wf (suspend c k s).
Proof. now apply wf_same. Qed.

Lemma wf_set_awaiting ks s : wf s -> wf (set_awaiting ks s).
Proof. now apply wf_same. Qed.

Lemma wf_executor id m p st s : wf s -> wf (sendRequest_executor id m p st s).
Proof.
  intros H. unfold sendRequest_executor.
  destruct (ws s) as [w|] eqn:E.
  - destruct (negb (isConnected s)).
    + eapply shrinks_wf; [apply shrinks_emit | exact H].
    + destruct st; simpl; apply (wf_has_socket _ w); exact E.
  - eapply shrinks_wf; [apply shrinks_emit | exact H].
Qed.

Lemma wf_next_promise s : wf s -> wf (next_promise s).
Proof. auto. Qed.

Lemma wf_sendRequest_resume r u st p failed s :
  wf s -> wf (sendRequest_resume r u st p failed s).
Proof.
  intros H. destruct failed as [e|]; simpl.
  - eapply shrinks_wf; [apply shrinks_emit | exact H].
  - now apply wf_executor.
Qed.

Lemma wf_resume k failed s : wf s -> wf (resume k failed s).
Proof.
  intros H. destruct k as [r u st p|]; simpl.
  - now apply wf_sendRequest_resume.
  - destruct failed; auto using wf_disconnect.
Qed.

Lemma wf_settle c failed s : wf s -> wf (settle c failed s).
Proof.
  intros H. unfold settle.
  destruct (find _ (awaiting s)) as [[c' k]|]; [|exact H].
  now apply wf_resume, wf_set_awaiting.
Qed.

Lemma wf_start c s : wf s -> wf (start c s).
Proof.
  intros H. unfold start. destruct (isConnected s); [exact H|].
  apply wf_suspend, wf_connect_begin.
Qed.

Lemma wf_sendRequest r u st s : wf s -> wf (sendRequest r u st s).
Proof.
  intros H. unfold sendRequest. apply wf_next_promise.
  destruct (negb (isConnected s)).
  - apply wf_suspend, wf_connect_begin.
  - now apply wf_sendRequest_resume.
Qed.

Lemma wf_fire t s : wf s -> wf (fire t s).
Proof.
  intros H. unfold fire. destruct (find _ (timers s)); [|exact H].
  apply wf_reconnect.
Qed.

Lemma wf_exec ev s : wf s -> wf (exec ev s).
Proof.
  intros H. destruct ev; simpl;
    auto using wf_start, wf_connect_begin, wf_disconnect, wf_reconnect,
      wf_sendRequest, wf_fire, wf_set_readyState.
  - destruct (ws s) as [w|]; [|exact H]. destruct (handlers s); [|exact H].
    destruct (readyState w); auto.
    now apply wf_settle, wf_clearConnectionTimeout, wf_set_readyState.
  - destruct (ws s); [now apply wf_handleMessage | exact H].
  - destruct (ws s) as [w|]; [|exact H]. destruct (handlers s); [|exact H].
    now apply wf_settle, wf_disconnect, wf_clearConnectionTimeout,
      wf_set_readyState.
  - destruct (ws s); auto using wf_disconnect, wf_set_readyState.
  - destruct (existsb _ _); [|exact H].
    pose proof (wf_clearConnectionTimeout c s H) as H0.
    destruct (ws s) as [w|]; [|exact H0].
    destruct (readyState w); auto.
    now apply wf_settle, wf_disconnect.
Qed.

Lemma wf_run evs s : wf s -> wf (run evs s).
Proof.
  revert s. induction evs as [|ev evs IH]; intros s H; simpl; [exact H|].
  apply IH, wf_exec, H.
Qed.

Lemma reachable_wf s : reachable s -> wf s.
Proof. intros [evs ->]. apply wf_run. intros _. reflexivity. Qed.

Lemma reachable_init : reachable init.
Proof. exists []. reflexivity. Qed.

Lemma run_app evs1 evs2 s : run (evs1 ++ evs2) s = run evs2 (run evs1 s).
Proof. revert s. induction evs1 as [|e evs1 IH]; intros s; simpl; auto. Qed.

Lemma reachable_run evs s : reachable s -> reachable (run evs s).
Proof. intros [evs0 ->]. exists (evs0 ++ evs). now rewrite run_app. Qed.

(** ** Reading what an operation added to the trace *)

Lemma skipn_length_app {A} (l r : list A) : skipn (List.length l) (l ++ r) = r.
Proof. induction l as [|a l IH]; simpl; auto. Qed.

Lemma added_app s s' es : trace s' = trace s ++ es -> added s s' = es.
Proof. unfold added. intros ->. apply skipn_length_app. Qed.

Lemma disconnect_idem s : disconnect (disconnect s) = disconnect s.
Proof. unfold disconnect at 1. now rewrite disconnect_ws. Qed.

Lemma reconnect_eq s :
  reconnect s =
  emit [WsNew EmptyString EmptyString] (open_socket EmptyString (disconnect s)).
Proof.
  unfold reconnect, connect_begin.
  now rewrite disconnect_not_connected, disconnect_idem.
Qed.

Lemma reconnect_trace s :
  trace (reconnect s) = trace (disconnect s) ++ [WsNew EmptyString EmptyString].
Proof. now rewrite reconnect_eq. Qed.

Lemma reconnect_pending s : wf s -> pendingRequests (reconnect s) = [].
Proof. intros H. rewrite reconnect_eq. simpl. now apply disconnect_pending. Qed.

Lemma filter_drained f es :
  (forall e, filter f (drained e) = []) -> filter f (flat_map drained es) = [].
Proof.
  intros H. induction es as [|e es IH]; [reflexivity|].
  change (flat_map drained (e :: es)) with (drained e ++ flat_map drained es).
  now rewrite filter_app, H, IH.
Qed.

Lemma filter_closes f w :
  f WsClose = false -> f WsTerminate = false -> filter f (closes w) = [].
Proof. intros H1 H2. unfold closes. destruct (readyState w); simpl; now rewrite ?H1, ?H2. Qed.

(** [disconnect] creates no socket and writes to none. *)
Lemma disconnect_no_new_no_send s :
  filter is_WsNew (added s (disconnect s)) = [] /\
  filter is_WsSend (added s (disconnect s)) = [].
Proof.
  rewrite (added_app _ _ _ (disconnect_trace s)).
  destruct (ws s) as [w|]; [|split; reflexivity].
  rewrite !filter_app, !filter_drained, !filter_closes; auto.
Qed.

Lemma In_drained id request es :
  In (id, request) es ->
  In (ClearTimeout (timeout request)) (flat_map drained es) /\
  In (Rejected (waiter request) connection_closed) (flat_map drained es).
Proof.
  intros H. split; apply in_flat_map; exists (id, request); simpl; auto.
Qed.

Lemma armed_false t s : (forall tm, In tm (timers s) -> timer_id tm <> t) ->
  armed t s = false.
Proof.
  intros H. unfold armed. destruct (existsb _ (timers s)) eqn:E; [|reflexivity].
  apply existsb_exists in E as [tm [Hin Heq]]. apply Nat.eqb_eq in Heq.
  destruct (H tm Hin). auto.
Qed.

(** C4.  After [disconnect()], called in any state the object can be in
    (with or without a socket, whatever the transport state), the table of
    pending requests is empty, [isConnected] is false, and every entry that
    was pending has had its timeout cleared and its [reject] called with
    the Connection error 'Connection closed'. *)
Theorem disconnect_drains_table (s : State) :
  reachable s ->
  pendingRequests (disconnect s) = [] /\
  isConnected (disconnect s) = false /\
  forall id request, In (id, request) (pendingRequests s) ->
    armed (timeout request) (disconnect s) = false /\
    In (ClearTimeout (timeout request)) (added s (disconnect s)) /\
    In (Rejected (waiter request)
          (mkError CONNECTION (JStr "Connection closed") JUndefined))
       (added s (disconnect s)).
Proof.
  intros Hr. pose proof (reachable_wf s Hr) as Hwf.
  split; [now apply disconnect_pending|].
  split; [apply disconnect_not_connected|].
  intros id request Hin.
  destruct (ws s) as [w|] eqn:E.
  - rewrite (added_app _ _ _ (disconnect_trace s)), E.
    destruct (In_drained id request _ Hin) as [H1 H2].
    split; [|split; apply in_or_app; right; assumption].
    apply armed_false. intros tm Htm Heq.
    rewrite (disconnect_some s w E) in Htm.
    apply reject_all_timers in Htm as [_ Hno]. apply Hno.
    rewrite Heq. apply (in_map (fun e => timeout (snd e)) _ (id, request)), Hin.
  - rewrite (Hwf E) in Hin. destruct Hin.
Qed.

Lemma disconnect_drains_table_witness :
  reachable two_pending /\
  pendingRequests (disconnect two_pending) = [] /\
  isConnected (disconnect two_pending) = false.
Proof.
  assert (H : reachable two_pending) by (eexists; reflexivity).
  split; [exact H|].
  destruct (disconnect_drains_table two_pending H) as (H1 & H2 & _).
  split; assumption.
Defined.

(** ** Every operation evolves the state *)

Lemma awaited_iff p s :
  awaited p s <-> In p (awaited_promises (awaiting s)).
Proof.
  unfold awaited, awaited_promises. rewrite in_flat_map. split.
  - intros (c & r & u & st & Hin). exists (c, ResumeSendRequest r u st p).
    split; [exact Hin | now left].
  - intros [[c k] [Hin Hp]]. destruct k as [r u st q|]; simpl in Hp.
    + destruct Hp as [->|[]]. eauto.
    + destruct Hp.
Qed.

Section Evolves.
Variable s0 : State.

Lemma evolves_refl : evolves s0 s0.
Proof.
  split; auto.
  - intros p Hp. now right.
  - exists []. split; [now rewrite app_nil_r | intros e p []].
Qed.

Lemma evolves_refs_pending s kv :
  evolves s0 s -> In kv (pendingRequests s) -> refs (waiter (snd kv)) s0.
Proof.
  intros H Hin. destruct (ev_pending _ _ H kv Hin) as [Hk|Hk].
  - left. eauto.
  - right. right. exact Hk.
Qed.

Lemma evolves_refs_timer s tm :
  evolves s0 s -> In tm (timers s) -> refs (timer_waiter tm) s0.
Proof.
  intros H Hin. destruct (ev_timers _ _ H tm Hin) as [Hk|[_ Hk]].
  - right. left. eauto.
  - right. right. exact Hk.
Qed.

Lemma evolves_refs_awaited s p : evolves s0 s -> awaited p s -> refs p s0.
Proof. intros H Hp. right. right. apply (ev_awaiting _ _ H p Hp). Qed.

Lemma evolves_emit es s :
  evolves s0 s ->
  (forall e p, In e es -> settles p e = true -> refs p s0) ->
  evolves s0 (emit es s).
Proof.
  intros [Ht Hp Ha [es0 [Htr Hes]] Hn] H. split; auto.
  exists (es0 ++ es). simpl. rewrite Htr, app_assoc. split; [reflexivity|].
  intros e p Hin. apply in_app_or in Hin as [Hin|Hin]; eauto.
Qed.

Lemma evolves_emit_quiet es s :
  evolves s0 s -> (forall e p, In e es -> settles p e = false) ->
  evolves s0 (emit es s).
Proof.
  intros H Hq. apply evolves_emit; [exact H|].
  intros e p Hin Hs. rewrite (Hq e p Hin) in Hs. discriminate.
Qed.

Lemma evolves_reject p e s : evolves s0 s -> refs p s0 -> evolves s0 (reject p e s).
Proof.
  intros H Hr. apply evolves_emit; [exact H|].
  intros e' q [<-|[]] Hs. simpl in Hs. apply Nat.eqb_eq in Hs. now subst.
Qed.

Lemma evolves_resolve p v s : evolves s0 s -> refs p s0 -> evolves s0 (resolve p v s).
Proof.
  intros H Hr. apply evolves_emit; [exact H|].
  intros e' q [<-|[]] Hs. simpl in Hs. apply Nat.eqb_eq in Hs. now subst.
Qed.

(** The socket, its handlers, the connection timeouts and the counter of
    the promises of [connect] do not matter. *)
Lemma evolves_same s s' :
  pendingRequests s' = pendingRequests s -> timers s' = timers s ->
  awaiting s' = awaiting s -> nextPromise s' = nextPromise s ->
  trace s' = trace s ->
  evolves s0 s -> evolves s0 s'.
Proof.
  intros Ep Et Ea En Etr [Ht Hp Ha Htr Hn].
  split; rewrite ?Ep, ?Et, ?En, ?Etr; auto.
  intros p Hp'. apply Ha. unfold awaited in *. now rewrite <- Ea.
Qed.

Lemma evolves_set_ws w s : evolves s0 s -> evolves s0 (set_ws w s).
Proof. now apply evolves_same. Qed.

Lemma evolves_set_handlers h s : evolves s0 s -> evolves s0 (set_handlers h s).
Proof. now apply evolves_same. Qed.

Lemma evolves_clearConnectionTimeout c s :
  evolves s0 s -> evolves s0 (clearConnectionTimeout c s).
Proof. now apply evolves_same. Qed.

Lemma evolves_open_socket l s : evolves s0 s -> evolves s0 (open_socket l s).
Proof. now apply evolves_same. Qed.

Lemma evolves_set_readyState rs s : evolves s0 s -> evolves s0 (set_readyState rs s).
Proof. intros H. unfold set_readyState. destruct (ws s); auto using evolves_set_ws. Qed.

Lemma evolves_set_timers ts s :
  evolves s0 s -> (forall tm, In tm ts -> In tm (timers s)) ->
  evolves s0 (set_timers ts s).
Proof. intros [Ht Hp Ha Htr Hn] H. split; auto. Qed.

Lemma In_disarm tm t ts : In tm (disarm t ts) -> In tm ts.
Proof. unfold disarm. intros H. now apply filter_In in H. Qed.

Lemma evolves_clearTimeout t s : evolves s0 s -> evolves s0 (clearTimeout t s).
Proof.
  intros H. unfold clearTimeout. apply evolves_emit_quiet.
  - apply evolves_set_timers; [exact H | intros tm; apply In_disarm].
  - intros e p [<-|[]]. reflexivity.
Qed.

Lemma evolves_pdelete k s : evolves s0 s -> evolves s0 (pdelete k s).
Proof.
  intros [Ht Hp Ha Htr Hn]. split; auto. simpl. intros kv Hin.
  apply PMapFacts.In_delete in Hin as [Hin _]. auto.
Qed.

Lemma In_set kv k v m : In kv (PMap.set k v m) -> kv = (k, v) \/ In kv m.
Proof.
  induction m as [|[k' v'] m IH]; simpl.
  - intros [<-|[]]. now left.
  - destruct (String.eqb k k'); simpl.
    + intros [<-|H]; auto.
    + intros [<-|H]; auto. destruct (IH H); auto.
Qed.

Lemma evolves_pset k p t s :
  evolves s0 s -> unstarted p s0 -> evolves s0 (pset k (mkPending p t) s).
Proof.
  intros [Ht Hp Ha Htr Hn] Hle. split; auto. simpl. intros kv Hin.
  apply In_set in Hin as [->|Hin]; auto.
Qed.

Lemma evolves_setTimeout id p s :
  evolves s0 s -> unstarted p s0 ->
  evolves s0 (snd (setTimeout id p REQUEST_TIMEOUT s)).
Proof.
  intros H Hle. unfold setTimeout. simpl. apply evolves_emit_quiet.
  - destruct H as [Ht Hp Ha Htr Hn]. split; auto. simpl. intros tm Hin.
    apply in_app_or in Hin as [Hin|[<-|[]]]; auto.
  - intros e q [<-|[]]. reflexivity.
Qed.

Lemma evolves_next_promise s : evolves s0 s -> evolves s0 (next_promise s).
Proof. intros [Ht Hp Ha Htr Hn]. split; auto. simpl. lia. Qed.

(** Calls are taken off the list of suspended calls. *)
Lemma evolves_set_awaiting ks s :
  evolves s0 s -> (forall a, In a ks -> In a (awaiting s)) ->
  evolves s0 (set_awaiting ks s).
Proof.
  intros [Ht Hp Ha Htr Hn] H. split; auto.
  intros p (c & r & u & st & Hin). apply Ha. exists c, r, u, st. now apply H.
Qed.

(** A call suspends: it is a [start], or a [sendRequest] whose promise was
    not created before. *)
Lemma evolves_suspend c k s :
  evolves s0 s ->
  (forall r u st p, k = ResumeSendRequest r u st p -> unstarted p s0) ->
  evolves s0 (suspend c k s).
Proof.
  intros [Ht Hp Ha Htr Hn] H. split; auto.
  intros p (c' & r & u & st & Hin). simpl in Hin.
  apply in_app_or in Hin as [Hin|[E|[]]].
  - apply Ha. exists c', r, u, st. exact Hin.
  - injection E as _ E. now apply (H r u st p).
Qed.

Lemma evolves_reject_all es s :
  evolves s0 s ->
  (forall e, In e es -> refs (waiter (snd e)) s0) ->
  evolves s0 (reject_all es s).
Proof.
  revert s. induction es as [|[id r] es IH]; intros s H Hes; simpl; [exact H|].
  apply IH; [|intros e He; apply Hes; now right].
  apply evolves_pdelete, evolves_reject; [now apply evolves_clearTimeout|].
  apply (Hes (id, r)). now left.
Qed.

Lemma evolves_disconnect s : evolves s0 s -> evolves s0 (disconnect s).
Proof.
  intros H. unfold disconnect. destruct (ws s) as [w|]; [|exact H].
  assert (Hq : forall es, (forall e p, In e es -> settles p e = false) ->
    evolves s0 (reject_all (pendingRequests s)
                  (set_ws None (emit es (set_handlers None s))))).
  { intros es Hes. apply evolves_reject_all.
    - apply evolves_set_ws, evolves_emit_quiet;
        [now apply evolves_set_handlers | exact Hes].
    - intros e He. now apply (evolves_refs_pending s). }
  destruct (readyState w).
  - apply Hq. intros e p [<-|[]]. reflexivity.
  - apply Hq. intros e p [<-|[]]. reflexivity.
  - apply evolves_reject_all;
      [now apply evolves_set_ws, evolves_set_handlers|].
    intros e He. now apply (evolves_refs_pending s).
  - apply evolves_reject_all;
      [now apply evolves_set_ws, evolves_set_handlers|].
    intros e He. now apply (evolves_refs_pending s).
Qed.

Lemma evolves_connect_begin c s : evolves s0 s -> evolves s0 (connect_begin c s).
Proof.
  intros H. unfold connect_begin. destruct (isConnected s); [exact H|].
  apply evolves_emit_quiet.
  - now apply evolves_open_socket, evolves_disconnect.
  - intros e p [<-|[]]. reflexivity.
Qed.

Lemma evolves_reconnect s : evolves s0 s -> evolves s0 (reconnect s).
Proof. intros H. now apply evolves_connect_begin, evolves_disconnect. Qed.

Lemma evolves_executor id m p st s :
  evolves s0 s -> unstarted p s0 ->
  evolves s0 (sendRequest_executor id m p st s).
Proof.
  intros H Hle. assert (Hr : refs p s0) by (right; right; exact Hle).
  unfold sendRequest_executor.
  destruct (match ws s with None => true | Some _ => negb (isConnected s) end).
  - now apply evolves_reject.
  - pose proof (evolves_setTimeout id p s H Hle) as H1.
    destruct (setTimeout id p REQUEST_TIMEOUT s) as [t s1]. simpl in H1.
    pose proof (evolves_pset id p t s1 H1 Hle) as H2.
    destruct st as [msg|].
    + apply evolves_reject; [|exact Hr].
      now apply evolves_pdelete, evolves_clearTimeout.
    + apply evolves_emit_quiet; [exact H2|]. intros e q [<-|[]]. reflexivity.
Qed.

Lemma evolves_sendRequest_resume r u st p failed s :
  evolves s0 s -> unstarted p s0 ->
  evolves s0 (sendRequest_resume r u st p failed s).
Proof.
  intros H Hp. destruct failed as [e|]; simpl.
  - apply evolves_reject; [exact H | right; right; exact Hp].
  - now apply evolves_executor.
Qed.

Lemma evolves_resume k failed s :
  evolves s0 s ->
  (forall r u st p, k = ResumeSendRequest r u st p -> unstarted p s0) ->
  evolves s0 (resume k failed s).
Proof.
  intros H Hk. destruct k as [r u st p|]; simpl.
  - apply evolves_sendRequest_resume; [exact H | now apply (Hk r u st p)].
  - destruct failed; auto using evolves_disconnect.
Qed.

Lemma evolves_settle c failed s : evolves s0 s -> evolves s0 (settle c failed s).
Proof.
  intros H. unfold settle.
  destruct (find _ (awaiting s)) as [[c' k]|] eqn:F; [|exact H].
  apply find_some in F as [Hin _].
  apply evolves_resume.
  - apply evolves_set_awaiting; [exact H|]. intros a Ha.
    now apply filter_In in Ha.
  - intros r u st p ->. apply (ev_awaiting _ _ H p). exists c', r, u, st. exact Hin.
Qed.

End Evolves.

Lemma get_value_In id m r :
  get_value id m = Some r -> exists k, In (k, r) m.
Proof.
  destruct id; simpl; try discriminate. intros H. eexists.
  apply PMapFacts.get_In, H.
Qed.

Lemma evolves_delete_value s0 id s : evolves s0 s -> evolves s0 (delete_value id s).
Proof. intros H. destruct id; simpl; auto using evolves_pdelete. Qed.

Lemma evolves_handleMessage_try parsed s :
  evolves s (fst (handleMessage_try parsed s)).
Proof.
  pose proof (evolves_refl s) as H0.
  unfold handleMessage_try. repeat break_match; simpl; auto.
  all: match goal with
       | H : get_value _ _ = Some ?r |- _ =>
           apply get_value_In in H as [k Hk];
           assert (Hr : refs (waiter r) s) by (left; exists (k, r); auto)
       end.
  all: first [ apply evolves_reject | apply evolves_resolve | idtac ]; auto.
  all: apply evolves_delete_value, evolves_clearTimeout, H0.
Qed.

Lemma evolves_sendRequest r u st s : evolves s (sendRequest r u st s).
Proof.
  pose proof (evolves_refl s) as H0. unfold sendRequest.
  assert (Hp : unstarted (nextPromise s) s) by (left; lia).
  apply evolves_next_promise. destruct (negb (isConnected s)).
  - apply evolves_suspend; [now apply evolves_connect_begin|].
    intros r' u' st' p [= _ _ _ <-]. exact Hp.
  - now apply evolves_sendRequest_resume.
Qed.

Lemma evolves_fire t s : evolves s (fire t s).
Proof.
  pose proof (evolves_refl s) as H0. unfold fire.
  destruct (find _ (timers s)) as [tm|] eqn:E; [|exact H0].
  apply find_some in E as [Hin _].
  assert (H1 : evolves s (set_timers (disarm t (timers s)) s)).
  { apply evolves_set_timers; [exact H0 | intros x; apply In_disarm]. }
  unfold timeout_handler. apply evolves_reconnect.
  destruct (PMap.has _ _); [|exact H1].
  apply evolves_reject; [now apply evolves_pdelete|].
  right. left. eauto.
Qed.

Lemma evolves_start c s : evolves s (start c s).
Proof.
  unfold start. destruct (isConnected s); [apply evolves_refl|].
  apply evolves_suspend; [apply evolves_connect_begin, evolves_refl|].
  intros r u st p E. discriminate.
Qed.

Lemma evolves_exec ev s : evolves s (exec ev s).
Proof.
  pose proof (evolves_refl s) as H0.
  destruct ev; simpl;
    auto using evolves_start, evolves_connect_begin, evolves_disconnect,
      evolves_reconnect, evolves_sendRequest, evolves_fire,
      evolves_set_readyState.
  - destruct (ws s) as [w|]; [|exact H0]. destruct (handlers s); [|exact H0].
    destruct (readyState w); auto.
    now apply evolves_settle, evolves_clearConnectionTimeout,
      evolves_set_readyState.
  - destruct (ws s); [|exact H0].
    rewrite handleMessage_fst. apply evolves_handleMessage_try.
  - destruct (ws s) as [w|]; [|exact H0]. destruct (handlers s); [|exact H0].
    now apply evolves_settle, evolves_disconnect,
      evolves_clearConnectionTimeout, evolves_set_readyState.
  - destruct (ws s); auto using evolves_disconnect, evolves_set_readyState.
  - destruct (existsb _ _); [|exact H0].
    pose proof (evolves_clearConnectionTimeout s c s H0) as H1.
    destruct (ws s) as [w|]; [|exact H1].
    destruct (readyState w); auto.
    now apply evolves_settle, evolves_disconnect.
Qed.

(** What [s] cannot settle, nothing that comes from [s] can. *)
Lemma evolves_refs_back s0 s p : evolves s0 s -> refs p s -> refs p s0.
Proof.
  intros H [[kv [Hin <-]]|[[tm [Hin <-]]|[Hle|Ha]]].
  - now apply (evolves_refs_pending s0 s).
  - now apply (evolves_refs_timer s0 s).
  - right. right. left. pose proof (ev_promise _ _ H). lia.
  - now apply (evolves_refs_awaited s0 s).
Qed.

Lemma evolves_unstarted_back s0 s p : evolves s0 s -> unstarted p s -> unstarted p s0.
Proof.
  intros H [Hle|Ha].
  - left. pose proof (ev_promise _ _ H). lia.
  - apply (ev_awaiting _ _ H p Ha).
Qed.

Lemma evolves_trans s1 s2 s3 : evolves s1 s2 -> evolves s2 s3 -> evolves s1 s3.
Proof.
  intros H12 H23. split.
  - intros tm Hin. destruct (ev_timers _ _ H23 tm Hin) as [H|[Hd Hle]].
    + apply (ev_timers _ _ H12 tm H).
    + right. split; [exact Hd|]. now apply (evolves_unstarted_back s1 s2).
  - intros kv Hin. destruct (ev_pending _ _ H23 kv Hin) as [H|Hle].
    + apply (ev_pending _ _ H12 kv H).
    + right. now apply (evolves_unstarted_back s1 s2).
  - intros p Hp. apply (evolves_unstarted_back s1 s2 p H12).
    apply (ev_awaiting _ _ H23 p Hp).
  - destruct (ev_trace _ _ H12) as [es1 [E1 F1]].
    destruct (ev_trace _ _ H23) as [es2 [E2 F2]].
    exists (es1 ++ es2). rewrite E2, E1, app_assoc. split; [reflexivity|].
    intros e p Hin Hs. apply in_app_or in Hin as [Hin|Hin]; eauto.
    apply (evolves_refs_back s1 s2); eauto.
  - pose proof (ev_promise _ _ H12). pose proof (ev_promise _ _ H23). lia.
Qed.

Lemma evolves_run evs s : evolves s (run evs s).
Proof.
  revert s. induction evs as [|ev evs IH]; intros s; simpl.
  - apply evolves_refl.
  - eapply evolves_trans; [apply evolves_exec | apply IH].
Qed.


(** A promise that neither the table nor a timer holds, and whose call is
    not suspended, is never settled again. *)
Lemma settle_count_app p l r :
  settle_count p (l ++ r) = settle_count p l + settle_count p r.
Proof. unfold settle_count. now rewrite filter_app, length_app. Qed.

Lemma evolves_orphan s s' p :
  evolves s s' -> ~ refs p s ->
  ~ refs p s' /\ settle_count p (trace s') = settle_count p (trace s).
Proof.
  intros H Hn. split.
  - intros Hr. apply Hn. now apply (evolves_refs_back s s').
  - destruct (ev_trace _ _ H) as [es [-> Hes]].
    rewrite settle_count_app.
    assert (E : filter (settles p) es = []).
    { apply nil_of_no_member. intros e He. apply filter_In in He as [Hin Hs].
      apply Hn. eauto. }
    unfold settle_count at 2. rewrite E. simpl. lia.
Qed.

(** ** The timeout of a request *)




Lemma fire_pending t tm s :
  find (fun x => Nat.eqb t (timer_id x)) (timers s) = Some tm ->
  PMap.has (timer_request tm) (pendingRequests s) = true ->
  fire t s = reconnect (timed_out_state t tm s).
Proof.
  intros Hf Hh. unfold fire, timeout_handler. rewrite Hf. simpl. now rewrite Hh.
Qed.

Lemma fire_pending_added t tm s :
  find (fun x => Nat.eqb t (timer_id x)) (timers s) = Some tm ->
  PMap.has (timer_request tm) (pendingRequests s) = true ->
  added s (fire t s) =
  Rejected (timer_waiter tm) timed_out ::
  added (timed_out_state t tm s) (disconnect (timed_out_state t tm s)) ++
  [WsNew EmptyString EmptyString].
Proof.
  intros Hf Hh. rewrite (fire_pending t tm s Hf Hh).
  apply added_app. rewrite reconnect_trace.
  set (s1 := timed_out_state t tm s).
  rewrite (disconnect_trace s1).
  rewrite (added_app _ _ _ (disconnect_trace s1)).
  unfold s1, timed_out_state. simpl. now rewrite <- !app_assoc.
Qed.



(** ** Two requests with the same identifier *)

Lemma not_refs_closed p s :
  pendingRequests s = [] -> timers s = [] -> awaiting s = [] ->
  p < nextPromise s -> ~ refs p s.
Proof.
  intros Hp Ht Ha Hn [[kv [Hin _]]|[[tm [Hin _]]|[Hle|Hw]]].
  - rewrite Hp in Hin. exact Hin.
  - rewrite Ht in Hin. exact Hin.
  - lia.
  - destruct Hw as (c & r & u & st & Hin). rewrite Ha in Hin. exact Hin.
Qed.

(** C1 at a failing input.  Two [sendRequest] calls give the identifier
    "X"; both requests are written to the socket.  The peer's reply to "X"
    resolves the second caller's promise (number 1).  The first caller's
    promise (number 0) is not settled by the reply, nor when its own timeout
    (handle 0) fires, nor by anything that happens afterwards: the second
    call's [set] replaced its table entry, so it stays pending for ever. *)
Theorem same_id_first_caller_never_settled :
  let s := run (same_id_twice ++ [TimerFires 0]) init in
  filter is_WsSend (trace s) =
    [WsSend (mkMessage "X" "get_console_logs" (JObj []));
     WsSend (mkMessage "X" "get_console_logs" (JObj []))] /\
  settle_count 1 (trace s) = 1 /\
  forall later : list Event, settle_count 0 (trace (run later s)) = 0.
Proof.
  intros s. split; [vm_compute; reflexivity|].
  split; [vm_compute; reflexivity|].
  intros later.
  assert (Hn : ~ refs 0 s).
  { apply not_refs_closed; vm_compute; [reflexivity .. | lia]. }
  destruct (evolves_orphan s (run later s) 0 (evolves_run later s) Hn) as [_ ->].
  vm_compute. reflexivity.
Qed.

(** C3 at a failing input.  After the second [sendRequest] with the
    identifier "X", the first request's entry has left the table (the entry
    under "X" belongs to promise 1 and timeout 1) while its timeout 0 was
    not cleared; after the reply to "X" the identifier is no longer in the
    table and timeout 0 is still armed for it. *)
Theorem same_id_leaves_timer_armed :
  let s2 := run (firstn 3 same_id_twice) init in
  let s3 := run same_id_twice init in
  PMap.get "X" (pendingRequests s2) = Some (mkPending 1 1) /\
  armed 0 s2 = true /\
  PMap.has "X" (pendingRequests s3) = false /\
  find (fun tm => Nat.eqb 0 (timer_id tm)) (timers s3) =
    Some (mkTimer 0 REQUEST_TIMEOUT "X" 0) /\
  ~ In (ClearTimeout 0) (trace s3).
Proof.
  intros s2 s3. repeat (split; [vm_compute; reflexivity|]).
  intros H.
  assert (E : forallb (fun e => match e with
                                | ClearTimeout 0 => false
                                | _ => true
                                end) (trace s3) = true)
    by (vm_compute; reflexivity).
  rewrite forallb_forall in E. specialize (E _ H). discriminate.
Qed.

(** ** Fresh handles and promise numbers *)

Lemma reject_all_nextConnect es s :
  nextConnect (reject_all es s) = nextConnect s.
Proof.
  revert s. induction es as [|[id r] es IH]; intros s; simpl; [reflexivity|].
  now rewrite IH.
Qed.

Lemma disconnect_nextConnect s : nextConnect (disconnect s) = nextConnect s.
Proof.
  unfold disconnect. destruct (ws s) as [w|]; [|reflexivity].
  rewrite reject_all_nextConnect. now destruct (readyState w).
Qed.

(** A [connect] that goes past its first test makes one new promise. *)
Lemma connect_begin_nextConnect c s :
  isConnected s = false ->
  nextConnect (connect_begin c s) = S (nextConnect s).
Proof.
  intros E. unfold connect_begin. rewrite E. simpl.
  now rewrite disconnect_nextConnect.
Qed.

Lemma narrows_refl s : narrows s s.
Proof. split; auto. Qed.

Lemma narrows_trans s1 s2 s3 : narrows s1 s2 -> narrows s2 s3 -> narrows s1 s3.
Proof.
  intros [A B C D E F G H] [A' B' C' D' E' F' G' H'].
  split; auto; try congruence; try lia.
  - destruct G' as [G'|[G'|(c & G' & L)]].
    + rewrite G'. destruct G as [G|[G|(c & G & L)]]; eauto.
    + auto.
    + right. right. exists c. split; [exact G' | lia].
  - intros c Hc. destruct (H' c Hc) as [Hin|L]; [auto | right; lia].
Qed.

Lemma narrows_emit es s : narrows s (emit es s).
Proof. split; auto. Qed.

Lemma narrows_set_ws w s : narrows s (set_ws w s).
Proof. split; auto. Qed.

Lemma narrows_clearConnectionTimeout c s : narrows s (clearConnectionTimeout c s).
Proof.
  split; auto. simpl. intros c' H. apply filter_In in H as [H _]. auto.
Qed.

Lemma narrows_open_socket l s : narrows s (open_socket l s).
Proof.
  split; auto; simpl.
  - lia.
  - right. right. eauto.
  - intros c H. apply in_app_or in H as [H|[<-|[]]]; auto.
Qed.

Lemma narrows_set_readyState rs s : narrows s (set_readyState rs s).
Proof. unfold set_readyState. destruct (ws s); auto using narrows_set_ws, narrows_refl. Qed.

Lemma narrows_clearTimeout t s : narrows s (clearTimeout t s).
Proof. split; auto. simpl. intros tm. apply In_disarm. Qed.

Lemma narrows_disarm t s : narrows s (set_timers (disarm t (timers s)) s).
Proof. split; auto. simpl. intros tm. apply In_disarm. Qed.

Lemma narrows_pdelete k s : narrows s (pdelete k s).
Proof. split; auto. simpl. intros kv H. now apply PMapFacts.In_delete in H. Qed.

Lemma narrows_delete_value v s : narrows s (delete_value v s).
Proof. destruct v; simpl; auto using narrows_pdelete, narrows_refl. Qed.

Lemma narrows_reject_all es s : narrows s (reject_all es s).
Proof.
  revert s. induction es as [|[id r] es IH]; intros s; simpl.
  - apply narrows_refl.
  - eapply narrows_trans; [|apply IH].
    eapply narrows_trans; [apply narrows_clearTimeout|].
    eapply narrows_trans; [apply narrows_emit | apply narrows_pdelete].
Qed.

Lemma narrows_closing w s : narrows s (closing w s).
Proof.
  unfold closing. destruct (readyState w); split; auto.
Qed.

Lemma narrows_disconnect s : narrows s (disconnect s).
Proof.
  destruct (ws s) as [w|] eqn:E.
  - rewrite (disconnect_some s w E).
    eapply narrows_trans; [apply narrows_closing | apply narrows_reject_all].
  - unfold disconnect. rewrite E. apply narrows_refl.
Qed.

Lemma narrows_connect_begin c s : narrows s (connect_begin c s).
Proof.
  unfold connect_begin. destruct (isConnected s); [apply narrows_refl|].
  eapply narrows_trans; [apply narrows_disconnect|].
  eapply narrows_trans; [apply narrows_open_socket | apply narrows_emit].
Qed.

Lemma narrows_reconnect s : narrows s (reconnect s).
Proof.
  eapply narrows_trans; [apply narrows_disconnect | apply narrows_connect_begin].
Qed.

Lemma narrows_handleMessage_try parsed s :
  narrows s (fst (handleMessage_try parsed s)).
Proof.
  assert (H : forall r t, narrows s (delete_value r (clearTimeout t s))).
  { intros r t. eapply narrows_trans;
      [apply narrows_clearTimeout | apply narrows_delete_value]. }
  unfold handleMessage_try. repeat break_match; simpl; auto using narrows_refl.
  all: eapply narrows_trans; [apply H | apply narrows_emit].
Qed.

Lemma narrows_handleMessage parsed s : narrows s (fst (handleMessage parsed s)).
Proof. rewrite handleMessage_fst. apply narrows_handleMessage_try. Qed.

Lemma narrows_fire t s : narrows s (fire t s).
Proof.
  unfold fire. destruct (find _ (timers s)); [|apply narrows_refl].
  unfold timeout_handler.
  eapply narrows_trans; [apply narrows_disarm|].
  eapply narrows_trans; [|apply narrows_reconnect].
  destruct (PMap.has _ _); [|apply narrows_refl].
  eapply narrows_trans; [apply narrows_pdelete | apply narrows_emit].
Qed.

Lemma bounded_narrows s s' : narrows s s' -> bounded s -> bounded s'.
Proof.
  intros [A B C D E F G H] [P T]. split; intros x Hx; rewrite C, D; auto.
Qed.

Lemma calm_narrows s s' : narrows s s' -> calm s -> calm s'.
Proof.
  intros [A B C D E F G H] [X O P T N]. split; rewrite ?E, ?D; eauto.
  intros a Ha. pose proof (N a Ha). lia.
Qed.

(** The suspended calls do not matter to [bounded]. *)
Lemma bounded_set_awaiting ks s : bounded s -> bounded (set_awaiting ks s).
Proof. intros [P T]. split; auto. Qed.

Lemma bounded_next_promise s : bounded s -> bounded (next_promise s).
Proof.
  intros [P T]. split; simpl; intros x Hx;
    [destruct (P x Hx) | destruct (T x Hx)]; lia.
Qed.

Lemma bounded_reject p e s : bounded s -> bounded (reject p e s).
Proof. intros [P T]. split; auto. Qed.

(** The executor of [sendRequest], for a promise that exists. *)
Lemma bounded_executor id m p st s :
  bounded s -> p < nextPromise s ->
  bounded (sendRequest_executor id m p st s).
Proof.
  intros [P T] Hp. unfold sendRequest_executor.
  destruct (match ws s with None => true | Some _ => negb (isConnected s) end).
  { split; auto. }
  assert (Hp' : forall kv,
    In kv (PMap.set id (mkPending p (nextTimer s)) (pendingRequests s)) ->
    waiter (snd kv) < nextPromise s /\ timeout (snd kv) < S (nextTimer s)).
  { intros kv Hin. apply In_set in Hin as [->|Hin]; simpl; [lia|].
    destruct (P kv Hin). lia. }
  assert (Ht : forall tm,
    In tm (timers s ++ [mkTimer (nextTimer s) REQUEST_TIMEOUT id p]) ->
    timer_waiter tm < nextPromise s /\ timer_id tm < S (nextTimer s)).
  { intros tm Hin. apply in_app_or in Hin as [Hin|[<-|[]]]; simpl; [|lia].
    destruct (T tm Hin). lia. }
  destruct st as [msg|]; split; simpl; auto.
  - intros kv Hin. apply PMapFacts.In_delete in Hin as [Hin _]. auto.
  - intros tm Hin. apply In_disarm in Hin. auto.
Qed.

Lemma bounded_sendRequest_resume r u st p failed s :
  bounded s -> p < nextPromise s ->
  bounded (sendRequest_resume r u st p failed s).
Proof.
  intros H Hp. destruct failed; simpl;
    auto using bounded_reject, bounded_executor.
Qed.

(** *** Suspended calls *)

Lemma awaited_promises_app l1 l2 :
  awaited_promises (l1 ++ l2) = awaited_promises l1 ++ awaited_promises l2.
Proof. unfold awaited_promises. apply flat_map_app. Qed.

Lemma awaited_promises_filter f l p :
  In p (awaited_promises (filter f l)) -> In p (awaited_promises l).
Proof.
  unfold awaited_promises. rewrite !in_flat_map.
  intros [a [Ha Hp]]. apply filter_In in Ha as [Ha _]. eauto.
Qed.

Lemma awaited_promises_send c r u st p l :
  awaited_promises ((c, ResumeSendRequest r u st p) :: l) = p :: awaited_promises l.
Proof. reflexivity. Qed.

Lemma awaited_promises_start c l :
  awaited_promises ((c, ResumeStart) :: l) = awaited_promises l.
Proof. reflexivity. Qed.

Lemma awaited_promises_filter_NoDup f l :
  NoDup (awaited_promises l) -> NoDup (awaited_promises (filter f l)).
Proof.
  induction l as [|[c [r u st p|]] l IH]; intros H; [exact H| |].
  - rewrite awaited_promises_send in H. inversion H as [|? ? Hn Hd]; subst.
    cbn [filter]. destruct (f _); [|auto].
    rewrite awaited_promises_send. apply NoDup_cons; [|auto].
    intros Hin. apply Hn. now apply (awaited_promises_filter f).
  - rewrite awaited_promises_start in H.
    cbn [filter]. destruct (f _); [|auto].
    rewrite awaited_promises_start. auto.
Qed.

(** The call that goes on is no longer among the suspended calls. *)
Lemma resumed_not_awaited c c' r u st p l :
  NoDup (awaited_promises l) ->
  find (fun a => Nat.eqb c (fst a)) l = Some (c', ResumeSendRequest r u st p) ->
  ~ In p (awaited_promises (filter (fun a => negb (Nat.eqb c (fst a))) l)).
Proof.
  induction l as [|[c0 [r0 u0 st0 p0|]] l IH]; intros Hnd F; [discriminate| |].
  - rewrite awaited_promises_send in Hnd. inversion Hnd as [|? ? Hn Hd]; subst.
    cbn [find filter fst] in *. destruct (Nat.eqb c c0) eqn:E; cbn [negb].
    + injection F as -> -> -> -> ->.
      intros Hin. apply Hn. revert Hin. apply awaited_promises_filter.
    + rewrite awaited_promises_send. intros [->|Hin].
      * apply Hn. apply find_some in F as [Hin _].
        unfold awaited_promises. apply in_flat_map.
        exists (c', ResumeSendRequest r u st p). split; [exact Hin | now left].
      * now apply (IH Hd F).
  - rewrite awaited_promises_start in Hnd.
    cbn [find filter fst] in *. destruct (Nat.eqb c c0) eqn:E; cbn [negb].
    + discriminate.
    + rewrite awaited_promises_start. now apply IH.
Qed.

Lemma calm_set_awaiting_filter f s :
  calm s -> calm (set_awaiting (filter f (awaiting s)) s).
Proof.
  intros [X O P T N]. split; simpl.
  - intros p Hp. apply X. now apply (awaited_promises_filter f).
  - now apply awaited_promises_filter_NoDup.
  - intros p kv Hp. apply P. now apply (awaited_promises_filter f).
  - intros p tm Hp. apply T. now apply (awaited_promises_filter f).
  - intros a Ha. apply N. now apply filter_In in Ha.
Qed.

Lemma calm_reject p e s : calm s -> calm (reject p e s).
Proof. intros [X O P T N]. split; auto. Qed.

(** The executor of [sendRequest] for a promise of no suspended call. *)
Lemma calm_executor id m p st s :
  calm s -> ~ In p (awaited_promises (awaiting s)) ->
  calm (sendRequest_executor id m p st s).
Proof.
  intros [X O P T N] Hp. unfold sendRequest_executor.
  destruct (match ws s with None => true | Some _ => negb (isConnected s) end).
  { split; auto. }
  destruct st as [msg|]; split; simpl; auto.
  - intros q kv Hq Hin. apply PMapFacts.In_delete in Hin as [Hin _].
    apply In_set in Hin as [->|Hin]; simpl; [congruence | eauto].
  - intros q tm Hq Hin. apply In_disarm in Hin.
    apply in_app_or in Hin as [Hin|[<-|[]]]; simpl; [eauto | congruence].
  - intros q kv Hq Hin.
    apply In_set in Hin as [->|Hin]; simpl; [congruence | eauto].
  - intros q tm Hq Hin.
    apply in_app_or in Hin as [Hin|[<-|[]]]; simpl; [eauto | congruence].
Qed.

Lemma calm_next_promise s : calm s -> calm (next_promise s).
Proof.
  intros [X O P T N]. split; auto. simpl. intros p Hp. pose proof (X p Hp). lia.
Qed.

(** [sane]: both invariants. *)
Lemma sane_narrows s s' :
  narrows s s' -> bounded s /\ calm s -> bounded s' /\ calm s'.
Proof. intros H [B C]. split; eauto using bounded_narrows, calm_narrows. Qed.

Lemma sane_resume k failed s :
  bounded s /\ calm s ->
  (forall r u st p, k = ResumeSendRequest r u st p ->
     p < nextPromise s /\ ~ In p (awaited_promises (awaiting s))) ->
  bounded (resume k failed s) /\ calm (resume k failed s).
Proof.
  intros [B C] Hk. destruct k as [r u st p|]; simpl.
  - destruct (Hk r u st p eq_refl) as [Hp Hn].
    split; [now apply bounded_sendRequest_resume|].
    destruct failed; simpl; auto using calm_reject, calm_executor.
  - destruct failed; [|auto]. apply (sane_narrows s); auto using narrows_disconnect.
Qed.

Lemma sane_settle c failed s :
  bounded s /\ calm s -> bounded (settle c failed s) /\ calm (settle c failed s).
Proof.
  intros [B C]. unfold settle.
  destruct (find _ (awaiting s)) as [[c' k]|] eqn:F; [|auto].
  apply sane_resume.
  - split; [now apply bounded_set_awaiting | now apply calm_set_awaiting_filter].
  - intros r u st p ->. simpl. split.
    + apply (cl_exists s C). apply find_some in F as [Hin _].
      unfold awaited_promises. apply in_flat_map.
      exists (c', ResumeSendRequest r u st p). split; [exact Hin | now left].
    + apply (resumed_not_awaited c c' r u st p); [apply C | exact F].
Qed.

Lemma sane_suspend_start c s :
  bounded s /\ calm s -> c < nextConnect s ->
  bounded (suspend c ResumeStart s) /\ calm (suspend c ResumeStart s).
Proof.
  intros [[P T] [X O Pn Tm N]] Hc. split; [split; auto|].
  assert (E : awaited_promises (awaiting s ++ [(c, ResumeStart)]) =
              awaited_promises (awaiting s)).
  { rewrite awaited_promises_app. simpl. apply app_nil_r. }
  split; simpl; rewrite ?E; auto.
  intros a Ha. apply in_app_or in Ha as [Ha|[<-|[]]]; auto.
Qed.

Lemma sane_suspend_sendRequest c r u st s :
  bounded s /\ calm s -> c < nextConnect s ->
  let s' := next_promise (suspend c (ResumeSendRequest r u st (nextPromise s)) s) in
  bounded s' /\ calm s'.
Proof.
  intros [[P T] [X O Pn Tm N]] Hc s'. split.
  - apply bounded_next_promise. split; auto.
  - assert (E : awaited_promises
                  (awaiting s ++ [(c, ResumeSendRequest r u st (nextPromise s))]) =
                awaited_promises (awaiting s) ++ [nextPromise s]).
    { rewrite awaited_promises_app. reflexivity. }
    split; simpl; rewrite ?E.
    + intros p Hp. apply in_app_or in Hp as [Hp|[<-|[]]]; [|lia].
      pose proof (X p Hp). lia.
    + apply NoDup_app; [exact O | apply NoDup_cons; [intros [] | apply NoDup_nil] |].
      intros p Hp [<-|[]]. pose proof (X _ Hp). lia.
    + intros p kv Hp Hin. apply in_app_or in Hp as [Hp|[<-|[]]]; [eauto|].
      destruct (P kv Hin). lia.
    + intros p tm Hp Hin. apply in_app_or in Hp as [Hp|[<-|[]]]; [eauto|].
      destruct (T tm Hin). lia.
    + intros a Ha. apply in_app_or in Ha as [Ha|[<-|[]]]; auto.
Qed.

Lemma sane_start c s :
  bounded s /\ calm s -> bounded (start c s) /\ calm (start c s).
Proof.
  intros H. unfold start. destruct (isConnected s) eqn:E; [exact H|].
  apply sane_suspend_start.
  - apply (sane_narrows s); auto using narrows_connect_begin.
  - rewrite (connect_begin_nextConnect _ _ E). lia.
Qed.

Lemma sane_sendRequest r u st s :
  bounded s /\ calm s ->
  bounded (sendRequest r u st s) /\ calm (sendRequest r u st s).
Proof.
  intros H. unfold sendRequest. destruct (isConnected s) eqn:E; simpl.
  - destruct H as [B C].
    assert (Hn : ~ In (nextPromise s) (awaited_promises (awaiting s))).
    { intros Hin. pose proof (cl_exists s C _ Hin). lia. }
    split.
    + destruct B as [P T]. unfold sendRequest_resume, sendRequest_executor.
      destruct (match ws s with None => true | Some _ => negb (isConnected s) end).
      { split; simpl; intros x Hx; [destruct (P x Hx) | destruct (T x Hx)]; lia. }
      destruct st as [msg|]; split; simpl.
      * intros kv Hin. apply PMapFacts.In_delete in Hin as [Hin _].
        apply In_set in Hin as [->|Hin]; simpl; [lia|]. destruct (P kv Hin). lia.
      * intros tm Hin. apply In_disarm in Hin.
        apply in_app_or in Hin as [Hin|[<-|[]]]; simpl; [|lia].
        destruct (T tm Hin). lia.
      * intros kv Hin.
        apply In_set in Hin as [->|Hin]; simpl; [lia|]. destruct (P kv Hin). lia.
      * intros tm Hin.
        apply in_app_or in Hin as [Hin|[<-|[]]]; simpl; [|lia].
        destruct (T tm Hin). lia.
    + apply calm_next_promise. simpl. now apply calm_executor.
  - pose proof (narrows_connect_begin None s) as Hn.
    rewrite <- (nr_nextPromise _ _ Hn).
    apply sane_suspend_sendRequest.
    + apply (sane_narrows s); auto.
    + rewrite (connect_begin_nextConnect _ _ E). lia.
Qed.

Lemma sane_exec ev s :
  bounded s /\ calm s -> bounded (exec ev s) /\ calm (exec ev s).
Proof.
  intros H. destruct ev; simpl;
    auto using sane_start, sane_sendRequest.
  - apply (sane_narrows s); auto using narrows_connect_begin.
  - apply (sane_narrows s); auto. apply narrows_disconnect.
  - apply (sane_narrows s); auto using narrows_disconnect.
  - apply (sane_narrows s); auto using narrows_reconnect.
  - destruct (ws s) as [w|]; [|exact H]. destruct (handlers s); [|exact H].
    destruct (readyState w); auto.
    apply sane_settle, (sane_narrows s); auto.
    eapply narrows_trans;
      [apply narrows_set_readyState | apply narrows_clearConnectionTimeout].
  - destruct (ws s); [|exact H].
    apply (sane_narrows s); auto using narrows_handleMessage.
  - destruct (ws s) as [w|]; [|exact H]. destruct (handlers s); [|exact H].
    apply sane_settle, (sane_narrows s); auto.
    eapply narrows_trans; [apply narrows_set_readyState|].
    eapply narrows_trans;
      [apply narrows_clearConnectionTimeout | apply narrows_disconnect].
  - destruct (ws s); [|exact H]. apply (sane_narrows s); auto.
    eapply narrows_trans; [apply narrows_set_readyState | apply narrows_disconnect].
  - destruct (existsb _ _); [|exact H].
    assert (H0 : bounded (clearConnectionTimeout c s) /\
                 calm (clearConnectionTimeout c s)).
    { apply (sane_narrows s); auto using narrows_clearConnectionTimeout. }
    destruct (ws s) as [w|]; [|exact H0].
    destruct (readyState w); auto.
    apply sane_settle, (sane_narrows _ _ (narrows_disconnect _)), H0.
  - apply (sane_narrows s); auto using narrows_set_readyState.
  - apply (sane_narrows s); auto using narrows_fire.
Qed.

Lemma reachable_sane s : reachable s -> bounded s /\ calm s.
Proof.
  intros [evs ->].
  assert (H : bounded init /\ calm init).
  { split; split; simpl.
    - intros kv [].
    - intros tm [].
    - intros p [].
    - apply NoDup_nil.
    - intros p kv [].
    - intros p tm [].
    - intros a []. }
  revert H. generalize init. induction evs as [|ev evs IH]; intros s H; simpl.
  - exact H.
  - apply IH, sane_exec, H.
Qed.

Lemma reachable_bounded s : reachable s -> bounded s.
Proof. intros H. apply (reachable_sane s H). Qed.

Lemma reachable_calm s : reachable s -> calm s.
Proof. intros H. apply (reachable_sane s H). Qed.

(** ** Immediate failure of [sendRequest] *)

Lemma added_chain s s1 s2 :
  evolves s s1 -> evolves s1 s2 -> added s s2 = added s s1 ++ added s1 s2.
Proof.
  intros H1 H2. destruct (ev_trace _ _ H1) as [es1 [E1 _]].
  destruct (ev_trace _ _ H2) as [es2 [E2 _]].
  rewrite (added_app s s1 es1 E1), (added_app s1 s2 es2 E2).
  apply added_app. now rewrite E2, E1, app_assoc.
Qed.

Lemma added_same_trace s s1 s2 : trace s1 = trace s -> added s1 s2 = added s s2.
Proof. unfold added. now intros ->. Qed.

Lemma filter_settles_drained p es :
  (forall kv, In kv es -> waiter (snd kv) <> p) ->
  filter (settles p) (flat_map drained es) = [].
Proof.
  intros H. induction es as [|e es IH]; [reflexivity|].
  change (flat_map drained (e :: es)) with (drained e ++ flat_map drained es).
  rewrite filter_app, IH by (intros kv Hkv; apply H; now right).
  simpl. destruct (Nat.eqb_spec p (waiter (snd e))) as [E|E]; [|reflexivity].
  destruct (H e); [now left | auto].
Qed.

(** [disconnect] settles only promises that the table holds. *)
Lemma disconnect_quiet p s :
  (forall kv, In kv (pendingRequests s) -> waiter (snd kv) <> p) ->
  filter (settles p) (added s (disconnect s)) = [].
Proof.
  intros H. rewrite (added_app _ _ _ (disconnect_trace s)).
  destruct (ws s) as [w|]; [|reflexivity].
  rewrite filter_app, filter_settles_drained by exact H.
  rewrite filter_closes; reflexivity.
Qed.

Lemma connect_begin_added c s :
  isConnected s = false ->
  added s (connect_begin c s) =
  added s (disconnect s) ++ [WsNew (label_or_empty c) (label_or_empty c)].
Proof.
  intros E. rewrite (added_app _ _ _ (disconnect_trace s)).
  apply added_app. unfold connect_begin. rewrite E. simpl.
  now rewrite (disconnect_trace s), <- app_assoc.
Qed.

Lemma connect_begin_quiet p c s :
  (forall kv, In kv (pendingRequests s) -> waiter (snd kv) <> p) ->
  filter (settles p) (added s (connect_begin c s)) = [].
Proof.
  intros H. destruct (isConnected s) eqn:E.
  - unfold connect_begin. rewrite E. unfold added. now rewrite skipn_all.
  - rewrite (connect_begin_added c s E), filter_app, disconnect_quiet by exact H.
    reflexivity.
Qed.

Lemma set_readyState_trace rs s : trace (set_readyState rs s) = trace s.
Proof. unfold set_readyState. now destruct (ws s). Qed.

Lemma set_readyState_pending rs s :
  pendingRequests (set_readyState rs s) = pendingRequests s.
Proof. unfold set_readyState. now destruct (ws s). Qed.

Lemma executor_not_live id m p st s :
  isConnected s = false ->
  sendRequest_executor id m p st s = reject p not_connected s.
Proof.
  intros H. unfold sendRequest_executor. rewrite H. now destruct (ws s).
Qed.

Lemma executor_live id m p st s :
  isConnected s = true ->
  sendRequest_executor id m p st s =
  let s2 := pset id (mkPending p (nextTimer s))
              (snd (setTimeout id p REQUEST_TIMEOUT s)) in
  match st with
  | None => emit [WsSend m] s2
  | Some msg =>
      reject p (send_failed msg) (pdelete id (clearTimeout (nextTimer s) s2))
  end.
Proof.
  intros H. unfold sendRequest_executor. rewrite H.
  destruct (isConnected_has_socket s H) as [w ->]. reflexivity.
Qed.

(** What the call adds to the trace when it goes on. *)
Lemma resume_trace r u st p failed s :
  trace (sendRequest_resume r u st p failed s) =
  trace s ++ final_effects failed s p
    (mkMessage (choose_id r u) (req_method r) (req_params r)) st.
Proof.
  unfold sendRequest_resume, final_effects.
  destruct failed as [e|]; [reflexivity|].
  destruct (isConnected s) eqn:L.
  - rewrite (executor_live _ _ _ _ _ L).
    destruct st; simpl; now rewrite <- !app_assoc.
  - now rewrite (executor_not_live _ _ _ _ _ L).
Qed.

Lemma final_effects_rejects failed s p m st :
  (exists e, In (Rejected p e) (final_effects failed s p m st)) <->
  (failed <> None \/ isConnected s = false \/ st <> None).
Proof.
  unfold final_effects. split.
  - intros [e He]. destruct failed as [e0|]; [left; discriminate|].
    destruct (isConnected s); [|auto].
    destruct st; [right; right; discriminate|].
    destruct He as [He|[He|[]]]; discriminate.
  - intros Hc. destruct failed as [e0|]; [exists e0; now left|].
    destruct (isConnected s); [|exists not_connected; now left].
    destruct st as [msg|].
    + exists (send_failed msg). simpl. auto.
    + destruct Hc as [Hc|[Hc|Hc]]; congruence.
Qed.

Lemma final_effects_error failed s p m st e :
  (forall e0, failed = Some e0 -> err_type e0 = CONNECTION) ->
  In (Rejected p e) (final_effects failed s p m st) -> err_type e = CONNECTION.
Proof.
  intros Hf He. unfold final_effects in He. destruct failed as [e0|].
  - destruct He as [[= <-]|[]]. now apply Hf.
  - destruct (isConnected s).
    + destruct st; destruct He as [He|[He|He]]; try discriminate.
      * destruct He as [[= <-]|[]]. reflexivity.
      * destruct He.
    + destruct He as [[= <-]|[]]. reflexivity.
Qed.

(** When the call rejects as it goes on, it leaves no entry under its
    identifier and no timer of its own. *)
Lemma resume_leaves_nothing r u st p failed s :
  (failed <> None \/ isConnected s = false -> pendingRequests s = []) ->
  (forall tm, In tm (timers s) -> timer_waiter tm <> p) ->
  failed <> None \/ isConnected s = false \/ st <> None ->
  PMap.has (choose_id r u)
    (pendingRequests (sendRequest_resume r u st p failed s)) = false /\
  forall tm, In tm (timers (sendRequest_resume r u st p failed s)) ->
    timer_waiter tm <> p.
Proof.
  intros Hnl Ht Hc. unfold sendRequest_resume.
  destruct failed as [e0|].
  - simpl. rewrite Hnl by (left; discriminate). auto.
  - destruct (isConnected s) eqn:L.
    + destruct st as [msg|]; [|destruct Hc as [Hc|[Hc|Hc]]; congruence].
      rewrite (executor_live _ _ _ _ _ L). simpl. split.
      * apply PMapFacts.has_delete_same.
      * intros tm Htm. unfold disarm in Htm.
        apply filter_In in Htm as [Htm Hne].
        apply in_app_or in Htm as [Htm|[<-|[]]]; [auto|].
        simpl in Hne. now rewrite Nat.eqb_refl in Hne.
    + rewrite (executor_not_live _ _ _ _ _ L). simpl.
      rewrite Hnl by now right. auto.
Qed.

Lemma find_app_skip {A} (f : A -> bool) l1 l2 :
  (forall a, In a l1 -> f a = false) -> find f (l1 ++ l2) = find f l2.
Proof.
  induction l1 as [|a l1 IH]; intros H; [reflexivity|]. simpl.
  rewrite (H a) by now left. apply IH. intros b Hb. apply H. now right.
Qed.

(** The handler that settles a promise of [connect] only removes entries
    and timers, settles only promises that the table holds, and leaves a
    live connection when it resolves the promise and none when it rejects
    it; the call that waits for the promise goes on after the handler. *)
Lemma handler_settles_spec ev s c failed s1 :
  handler_settles ev s = Some (c, failed, s1) ->
  exec ev s = settle c failed s1 /\
  narrows s s1 /\
  (exists es, trace s1 = trace s ++ es /\
     forall q, (forall kv, In kv (pendingRequests s) -> waiter (snd kv) <> q) ->
       filter (settles q) es = []) /\
  (failed = None -> isConnected s1 = true) /\
  (forall e, failed = Some e -> err_type e = CONNECTION /\ ws s1 = None) /\
  (wf s -> wf s1).
Proof.
  assert (Hd : forall s0, trace s0 = trace s ->
            pendingRequests s0 = pendingRequests s ->
            exists es, trace (disconnect s0) = trace s ++ es /\
              forall q, (forall kv, In kv (pendingRequests s) -> waiter (snd kv) <> q) ->
                filter (settles q) es = []).
  { intros s0 Et Ep. exists (added s0 (disconnect s0)). split.
    - rewrite <- Et. pose proof (disconnect_trace s0) as E.
      now rewrite (added_app _ _ _ E).
    - intros q Hq. apply disconnect_quiet. now rewrite Ep. }
  destruct ev; simpl; try discriminate.
  - (* onopen *)
    destruct (ws s) as [w|] eqn:W; [|discriminate].
    destruct (handlers s) as [c0|]; [|discriminate].
    destruct (readyState w) eqn:R; try discriminate.
    intros [= <- <- <-]. split; [reflexivity|]. split; [|split; [|split; [|split]]].
    + eapply narrows_trans;
        [apply narrows_set_readyState | apply narrows_clearConnectionTimeout].
    + exists []. simpl. rewrite set_readyState_trace, app_nil_r. auto.
    + intros _. unfold isConnected, set_readyState. simpl. now rewrite W.
    + discriminate.
    + intros H. now apply wf_clearConnectionTimeout, wf_set_readyState.
  - (* onerror *)
    destruct (ws s) as [w|] eqn:W; [|discriminate].
    destruct (handlers s) as [c0|]; [|discriminate].
    intros [= <- <- <-]. split; [reflexivity|]. split; [|split; [|split; [|split]]].
    + eapply narrows_trans; [apply narrows_set_readyState|].
      eapply narrows_trans;
        [apply narrows_clearConnectionTimeout | apply narrows_disconnect].
    + apply Hd; simpl;
        [apply set_readyState_trace | apply set_readyState_pending].
    + discriminate.
    + intros e [= <-]. split; [reflexivity | apply disconnect_ws].
    + intros H.
      now apply wf_disconnect, wf_clearConnectionTimeout, wf_set_readyState.
  - (* the connection timeout *)
    destruct (existsb _ _); [|discriminate].
    destruct (ws s) as [w|] eqn:W; [|discriminate].
    destruct (readyState w) eqn:R; try discriminate.
    intros [= <- <- <-]. split; [reflexivity|]. split; [|split; [|split; [|split]]].
    + eapply narrows_trans;
        [apply narrows_clearConnectionTimeout | apply narrows_disconnect].
    + apply Hd; reflexivity.
    + discriminate.
    + intros e [= <-]. split; [reflexivity | apply disconnect_ws].
    + intros H. now apply wf_disconnect, wf_clearConnectionTimeout.
Qed.

Lemma settle_waits c failed s k :
  waits_for c s = Some k ->
  settle c failed s =
  resume k failed
    (set_awaiting (filter (fun a => negb (Nat.eqb c (fst a))) (awaiting s)) s).
Proof.
  unfold waits_for, settle.
  destruct (find _ (awaiting s)) as [[c' k']|]; [|discriminate].
  now intros [= ->].
Qed.

Lemma waits_for_awaited c s r u st p :
  waits_for c s = Some (ResumeSendRequest r u st p) ->
  In p (awaited_promises (awaiting s)).
Proof.
  unfold waits_for. destruct (find _ (awaiting s)) as [[c' k']|] eqn:F;
    [|discriminate].
  intros [= ->]. apply find_some in F as [Hin _].
  unfold awaited_promises. apply in_flat_map.
  exists (c', ResumeSendRequest r u st p). split; [exact Hin | now left].
Qed.

(** C6.  A call of [sendRequest] on a live connection rejects its promise
    exactly when the send on the socket raises.  A call without a live
    connection starts one connect attempt and waits for its promise; when
    a handler settles that promise, the call goes on and rejects its own
    promise exactly when the connect rejected, or no live connection
    exists then, or the send raises.  Whenever the call rejects so, the
    error is a Connection error, and the table holds no entry for the
    request's identifier afterwards and no timeout stays armed for the
    call. *)
Theorem sendRequest_fails_with_connection_error
  (s : State) (r : Request) (u : string) (st : option string)
  (evs : list Event) (ev : Event) (c : nat) (failed : option McpUnityError)
  (s1 : State) :
  reachable s ->
  let p := nextPromise s in
  let s' := sendRequest r u st s in
  let t := run evs s' in
  let t' := exec ev t in
  (isConnected s = true ->
   ((exists e, In (Rejected p e) (added s s')) <-> st <> None) /\
   (forall e, In (Rejected p e) (added s s') -> err_type e = CONNECTION) /\
   (st <> None ->
    PMap.has (choose_id r u) (pendingRequests s') = false /\
    forall tm, In tm (timers s') -> timer_waiter tm <> p)) /\
  (isConnected s = false ->
   waits_for (nextConnect s) s' = Some (ResumeSendRequest r u st p) /\
   filter (settles p) (added s s') = [] /\
   filter is_WsNew (added s s') = [WsNew EmptyString EmptyString]) /\
  (handler_settles ev t = Some (c, failed, s1) ->
   waits_for c t = Some (ResumeSendRequest r u st p) ->
   ((exists e, In (Rejected p e) (added t t')) <->
    (failed <> None \/ isConnected s1 = false \/ st <> None)) /\
   (forall e, In (Rejected p e) (added t t') -> err_type e = CONNECTION) /\
   (failed <> None \/ isConnected s1 = false \/ st <> None ->
    PMap.has (choose_id r u) (pendingRequests t') = false /\
    forall tm, In tm (timers t') -> timer_waiter tm <> p)).
Proof.
  intros Hr p s' t t'.
  pose proof (reachable_wf s Hr) as Hwf.
  pose proof (reachable_bounded s Hr) as Hb.
  pose proof (reachable_calm s Hr) as Hc.
  split; [|split].
  - (* on a live connection *)
    intros L.
    assert (Es : s' = next_promise (sendRequest_resume r u st p None s)).
    { unfold s', sendRequest. now rewrite L. }
    assert (Ea : added s s' =
              final_effects None s p
                (mkMessage (choose_id r u) (req_method r) (req_params r)) st).
    { apply added_app. rewrite Es. apply resume_trace. }
    assert (Ht : forall tm, In tm (timers s) -> timer_waiter tm <> p).
    { intros tm Htm. destruct (bd_timers _ Hb tm Htm). unfold p. lia. }
    split; [|split].
    + rewrite Ea, final_effects_rejects. split.
      * intros [H|[H|H]]; congruence.
      * auto.
    + intros e. rewrite Ea. apply final_effects_error. discriminate.
    + intros Hst. rewrite Es.
      apply (resume_leaves_nothing r u st p None s); auto.
      intros [H|H]; congruence.
  - (* without one *)
    intros L.
    assert (Es : s' = next_promise
              (suspend (nextConnect s) (ResumeSendRequest r u st p)
                 (connect_begin None s))).
    { unfold s', sendRequest. now rewrite L. }
    assert (Ea : added s s' = added s (connect_begin None s)).
    { rewrite Es. reflexivity. }
    split; [|split].
    + rewrite Es. unfold waits_for. simpl.
      rewrite (nr_awaiting _ _ (narrows_connect_begin None s)).
      rewrite find_app_skip.
      * simpl. now rewrite Nat.eqb_refl.
      * intros a Ha. pose proof (cl_connect _ Hc a Ha).
        apply Nat.eqb_neq. lia.
    + rewrite Ea. apply connect_begin_quiet.
      intros kv Hkv. destruct (bd_pending _ Hb kv Hkv). unfold p. lia.
    + rewrite Ea, (connect_begin_added None s L), filter_app.
      now rewrite (proj1 (disconnect_no_new_no_send s)).
  - (* when the connect settles *)
    intros Hh Hw.
    assert (Hrt : reachable t).
    { apply (reachable_run (CallSendRequest r u st :: evs) s Hr). }
    pose proof (reachable_wf t Hrt) as Hwft.
    pose proof (reachable_calm t Hrt) as Hct.
    destruct (handler_settles_spec ev t c failed s1 Hh)
      as (Ex & Hn & (es & Et & Hq) & Hopen & Hfail & Hwf1).
    pose proof (waits_for_awaited _ _ _ _ _ _ Hw) as Hp.
    set (s2 := set_awaiting
                 (filter (fun a => negb (Nat.eqb c (fst a))) (awaiting s1)) s1).
    assert (Hw1 : waits_for c s1 = Some (ResumeSendRequest r u st p)).
    { unfold waits_for. now rewrite (nr_awaiting _ _ Hn). }
    assert (Et' : t' = sendRequest_resume r u st p failed s2).
    { unfold t'. rewrite Ex. now rewrite (settle_waits _ _ _ _ Hw1). }
    assert (Ea : added t t' =
              es ++ final_effects failed s1 p
                (mkMessage (choose_id r u) (req_method r) (req_params r)) st).
    { apply added_app. rewrite Et', resume_trace.
      change (trace s2) with (trace s1). rewrite Et, <- app_assoc. reflexivity. }
    assert (Hin : forall e, In (Rejected p e) (added t t') <->
              In (Rejected p e)
                (final_effects failed s1 p
                   (mkMessage (choose_id r u) (req_method r) (req_params r)) st)).
    { intros e. rewrite Ea, in_app_iff. split; [|auto].
      intros [H|H]; [|exact H].
      assert (Hf : In (Rejected p e) (filter (settles p) es)).
      { apply filter_In. split; [exact H | simpl; apply Nat.eqb_refl]. }
      rewrite Hq in Hf; [destruct Hf|].
      intros kv Hkv. now apply (cl_pending _ Hct). }
    split; [|split].
    + rewrite <- final_effects_rejects. split; intros [e He]; exists e;
        now apply Hin.
    + intros e He. apply Hin in He. revert He. apply final_effects_error.
      intros e0 E0. now apply Hfail.
    + intros Hcase. rewrite Et'.
      apply (resume_leaves_nothing r u st p failed s2).
      * change (isConnected s2) with (isConnected s1).
        change (pendingRequests s2) with (pendingRequests s1).
        intros [H|H].
        -- destruct failed as [e0|]; [|congruence].
           destruct (Hfail e0 eq_refl) as [_ W]. now apply Hwf1.
        -- destruct failed as [e0|]; [|rewrite Hopen in H; congruence].
           destruct (Hfail e0 eq_refl) as [_ W]. now apply Hwf1.
      * change (timers s2) with (timers s1). intros tm Htm.
        apply (cl_timers _ Hct); [exact Hp|]. now apply (nr_timers _ _ Hn).
      * exact Hcase.
Qed.

Lemma sendRequest_fails_with_connection_error_witness :
  let r := example_request "A" in
  let t := sendRequest r "u" None init in
  reachable init /\
  handler_settles (OnConnectionTimeout 0) t =
    Some (0, Some connection_timeout, disconnect (clearConnectionTimeout 0 t)) /\
  waits_for 0 t = Some (ResumeSendRequest r "u" None 0) /\
  PMap.has "A" (pendingRequests (exec (OnConnectionTimeout 0) t)) = false.
Proof.
  intros r t.
  assert (Hr : reachable init) by (exists []; reflexivity).
  assert (H1 : handler_settles (OnConnectionTimeout 0) t =
                 Some (0, Some connection_timeout,
                       disconnect (clearConnectionTimeout 0 t)))
    by (vm_compute; reflexivity).
  assert (H2 : waits_for 0 t = Some (ResumeSendRequest r "u" None 0))
    by (vm_compute; reflexivity).
  split; [exact Hr|]. split; [exact H1|]. split; [exact H2|].
  destruct (sendRequest_fails_with_connection_error init r "u" None []
              (OnConnectionTimeout 0) 0 (Some connection_timeout)
              (disconnect (clearConnectionTimeout 0 t)) Hr) as (_ & _ & H).
  destruct (H H1 H2) as (_ & _ & H3).
  destruct H3 as [H3 _]; [left; discriminate|]. exact H3.
Defined.

(** C6 as stated fails: a request that was dispatched on a live connection
    (the connect it waited for resolved, and the send did not raise) is
    rejected with a Connection error all the same when the socket closes
    while it is pending. *)
Lemma dispatched_request_rejected_on_close :
  let r := example_request "A" in
  let t := sendRequest r "u" None init in
  let s1 := clearConnectionTimeout 0 (set_readyState OPEN t) in
  handler_settles OnOpen t = Some (0, None, s1) /\
  waits_for 0 t = Some (ResumeSendRequest r "u" None 0) /\
  isConnected s1 = true /\
  one_pending = exec OnOpen t /\
  trace one_pending =
    [WsNew EmptyString EmptyString; SetTimeout 0 REQUEST_TIMEOUT;
     WsSend (mkMessage "A" "get_console_logs" (JObj []))] /\
  added one_pending (exec OnClose one_pending) =
    [ClearTimeout 0;
     Rejected 0 (mkError CONNECTION (JStr "Connection closed") JUndefined)].
Proof. intros r t s1. repeat split; vm_compute; reflexivity. Qed.

(** ** Replies *)

Lemma truthy_prop v k : truthy v = true -> prop v k = Some (field v k).
Proof. unfold field. destruct v; simpl; try discriminate; reflexivity. Qed.

Lemma identifier_is_key response id m r :
  prop response "id" = Some id -> get_value id m = Some r ->
  exists fs k, response = JObj fs /\ id = JStr k /\ PMap.get k m = Some r.
Proof.
  intros Hid Hget. destruct id; simpl in Hget; try discriminate.
  destruct response; simpl in Hid; try discriminate. eauto.
Qed.

Lemma handleMessage_hit response id r s :
  prop response "id" = Some id -> truthy id = true ->
  get_value id (pendingRequests s) = Some r ->
  handleMessage (Some response) s =
  (emit [reply_settlement response r]
     (delete_value id (clearTimeout (timeout r) s)), None).
Proof.
  intros Hid Ht Hget.
  destruct (identifier_is_key _ _ _ _ Hid Hget) as (fs & k & -> & -> & Hk).
  unfold handleMessage, handleMessage_try, reply_settlement, field.
  rewrite Hid, Ht. simpl. unfold PMap.has. rewrite Hk. simpl.
  destruct (truthy (lookup_field "error" fs)) eqn:E; [|reflexivity].
  rewrite !(truthy_prop _ _ E). reflexivity.
Qed.

Lemma handleMessage_miss parsed s :
  routed parsed s = false -> handleMessage parsed s = (s, None).
Proof.
  unfold routed, handleMessage, handleMessage_try.
  destruct parsed as [response|]; [|reflexivity].
  destruct (prop response "id") as [id|]; [|reflexivity].
  now intros ->.
Qed.

Lemma has_value_delete id s :
  get_value id (pendingRequests s) <> None ->
  has_value id (pendingRequests (delete_value id s)) = false.
Proof.
  destruct id; simpl; try congruence. intros _. apply PMapFacts.has_delete_same.
Qed.

(** C7, amended.  For a message that parses and carries an identifier that
    is in the table, [handleMessage] clears the entry's timeout, removes the
    entry, and then: if the error field is truthy, calls the waiter's
    [reject] with a ToolExecution error whose message is the error's message
    when that is truthy and 'Unknown error' otherwise, and whose details are
    the error's details; if the error field is missing or falsy, calls the
    waiter's [resolve] with the result field.  Nothing is raised. *)
Theorem reply_settles_its_waiter
  (s : State) (response id : Json) (r : PendingRequest) :
  prop response "id" = Some id ->
  truthy id = true ->
  get_value id (pendingRequests s) = Some r ->
  let s' := fst (handleMessage (Some response) s) in
  let error := field response "error" in
  added s s' =
    [ClearTimeout (timeout r);
     if truthy error then
       Rejected (waiter r)
         (mkError TOOL_EXECUTION
            (if truthy (field error "message") then field error "message"
             else JStr "Unknown error")
            (field error "details"))
     else Resolved (waiter r) (field response "result")] /\
  has_value id (pendingRequests s') = false /\
  timers s' = disarm (timeout r) (timers s) /\
  snd (handleMessage (Some response) s) = None.
Proof.
  intros Hid Ht Hget s' error. unfold s'.
  rewrite (handleMessage_hit response id r s Hid Ht Hget).
  destruct (identifier_is_key _ _ _ _ Hid Hget) as (fs & k & -> & -> & Hk).
  simpl. split; [|split; [|split]]; try reflexivity.
  - apply added_app. simpl. rewrite <- app_assoc. simpl.
    unfold reply_settlement. fold error.
    destruct (truthy error); [|reflexivity].
    unfold or_else. reflexivity.
  - apply PMapFacts.has_delete_same.
Qed.

Lemma reply_settles_its_waiter_witness :
  added one_pending (fst (handleMessage (Some (reply_error "A" "boom")) one_pending)) =
    [ClearTimeout 0;
     Rejected 0 (mkError TOOL_EXECUTION (JStr "boom") JUndefined)].
Proof.
  exact (proj1 (reply_settles_its_waiter one_pending (reply_error "A" "boom")
                  (JStr "A") (mkPending 0 0) eq_refl eq_refl eq_refl)).
Defined.

(** C7 as stated fails: an error whose message is the empty string is
    reported as 'Unknown error', and an error field that is present but
    falsy resolves the waiter. *)
Lemma reply_error_message_not_carried :
  let empty_message := reply_error "A" EmptyString in
  let falsy_error :=
    JObj [("id", JStr "A"); ("error", JBool false); ("result", JStr "r")] in
  added one_pending (fst (handleMessage (Some empty_message) one_pending)) =
    [ClearTimeout 0;
     Rejected 0 (mkError TOOL_EXECUTION (JStr "Unknown error") JUndefined)] /\
  stated_reply_settlement empty_message (mkPending 0 0) =
    Rejected 0 (mkError TOOL_EXECUTION (JStr EmptyString) JUndefined) /\
  added one_pending (fst (handleMessage (Some falsy_error) one_pending)) =
    [ClearTimeout 0; Resolved 0 (JStr "r")] /\
  stated_reply_settlement falsy_error (mkPending 0 0) =
    Rejected 0 (mkError TOOL_EXECUTION JUndefined JUndefined).
Proof. repeat split. Qed.

(** C8.  A message that does not parse, that has no identifier (reading it
    raises, or it is falsy), or whose identifier is not in the table leaves
    the object as it was: no callback is called, the table and the timers
    are the same, and nothing is raised out of [handleMessage]. *)
Theorem unmatched_message_has_no_effect (s : State) (parsed : option Json) :
  (parsed = None \/
   exists response, parsed = Some response /\
     (prop response "id" = None \/
      exists id, prop response "id" = Some id /\
        (truthy id = false \/ has_value id (pendingRequests s) = false))) ->
  handleMessage parsed s = (s, None).
Proof.
  intros H. apply handleMessage_miss. unfold routed.
  destruct H as [->|[response [-> [->|[id [-> [->| ->]]]]]]]; auto.
  apply andb_false_r.
Qed.

Lemma unmatched_message_has_no_effect_witness :
  handleMessage (Some (reply_result "gone" JNull)) one_pending =
  (one_pending, None).
Proof.
  apply unmatched_message_has_no_effect. right.
  exists (reply_result "gone" JNull). split; [reflexivity|]. right.
  exists (JStr "gone"). split; [reflexivity|]. right. reflexivity.
Defined.

(** ** Reconnecting *)

(** C9.  [reconnect()], also when the timeout of a request calls it,
    starts the new connection with an empty client name: whatever the state
    (and so whatever name an earlier [start] or [connect] gave), the socket
    it leaves has the header X-Client-Name and the origin set to the empty
    string, and that socket is the only one it creates. *)
Theorem reconnect_drops_client_name (s : State) (tm : Timer) :
  ws (reconnect s) = Some (mkSocket CONNECTING EmptyString EmptyString) /\
  filter is_WsNew (added s (reconnect s)) = [WsNew EmptyString EmptyString] /\
  ws (timeout_handler tm s) = Some (mkSocket CONNECTING EmptyString EmptyString) /\
  filter is_WsNew (added s (timeout_handler tm s)) = [WsNew EmptyString EmptyString].
Proof.
  assert (H : forall x, ws (reconnect x) = Some (mkSocket CONNECTING EmptyString EmptyString) /\
                        filter is_WsNew (added x (reconnect x)) = [WsNew EmptyString EmptyString]).
  { intros x. split; [now rewrite reconnect_eq|].
    erewrite added_app
      by (rewrite reconnect_trace, (disconnect_trace x), <- app_assoc; reflexivity).
    rewrite <- (added_app _ _ _ (disconnect_trace x)).
    rewrite filter_app, (proj1 (disconnect_no_new_no_send x)). reflexivity. }
  destruct (H s) as [H1 H2]. repeat split; auto.
  - unfold timeout_handler. apply H.
  - unfold timeout_handler.
    destruct (PMap.has (timer_request tm) (pendingRequests s)); [|apply H].
    set (s1 := reject _ _ _). destruct (H s1) as [_ H3].
    destruct (ev_trace _ _ (evolves_reconnect s1 s1 (evolves_refl s1)))
      as [es [E _]].
    rewrite (added_app _ _ _ E) in H3.
    erewrite added_app by (rewrite E; unfold s1; simpl;
                           rewrite <- app_assoc; reflexivity).
    simpl. exact H3.
Qed.

(** ** A failure and the other pending requests *)

(** C2 as stated fails for a timeout: with "A" and "B" pending, the timeout
    of "A" removes the entry of "B" as well, clears its timer and rejects
    its waiter, because the handler reconnects. *)
Lemma timeout_rejects_the_other_requests :
  ~ others_untouched "A" 0 0 two_pending (fire 0 two_pending) /\
  PMap.get "B" (pendingRequests two_pending) = Some (mkPending 1 1) /\
  pendingRequests (fire 0 two_pending) = [] /\
  added two_pending (fire 0 two_pending) =
    [Rejected 0 (mkError TIMEOUT (JStr "Request timed out") JUndefined);
     WsClose; ClearTimeout 1;
     Rejected 1 (mkError CONNECTION (JStr "Connection closed") JUndefined);
     WsNew EmptyString EmptyString].
Proof.
  split; [|repeat split; vm_compute; reflexivity].
  intros [H _].
  assert (E : "B" <> "A") by discriminate. specialize (H "B" E).
  assert (E1 : PMap.get "B" (pendingRequests (fire 0 two_pending)) = None)
    by (vm_compute; reflexivity).
  assert (E2 : PMap.get "B" (pendingRequests two_pending) = Some (mkPending 1 1))
    by (vm_compute; reflexivity).
  congruence.
Qed.

Lemma In_disarm_other tm t ts : In tm ts -> timer_id tm <> t -> In tm (disarm t ts).
Proof.
  intros Hin Hne. unfold disarm. apply filter_In. split; [exact Hin|].
  destruct (Nat.eqb_spec t (timer_id tm)); [congruence | reflexivity].
Qed.

Lemma settles_other p q v e :
  q <> p -> settles q (Resolved p v) = false /\ settles q (Rejected p e) = false.
Proof.
  intros H. simpl. destruct (Nat.eqb_spec q p); [contradiction | auto].
Qed.

Lemma reply_leaves_others s response id r :
  prop response "id" = Some (JStr id) -> id <> EmptyString ->
  PMap.get id (pendingRequests s) = Some r ->
  others_untouched id (timeout r) (waiter r) s
    (fst (handleMessage (Some response) s)).
Proof.
  intros Hid Hne Hget.
  assert (Ht : truthy (JStr id) = true).
  { simpl. destruct (String.eqb_spec id EmptyString); [contradiction | reflexivity]. }
  rewrite (handleMessage_hit response (JStr id) r s Hid Ht Hget). simpl.
  repeat split.
  - intros k Hk. simpl. apply PMapFacts.get_delete_other. congruence.
  - intros tm Hin Hne'. simpl. now apply In_disarm_other.
  - intros q Hq.
    erewrite added_app by (simpl; rewrite <- app_assoc; reflexivity).
    unfold reply_settlement, settle_count. simpl.
    destruct (truthy (field response "error")); simpl;
      destruct (Nat.eqb_spec q (waiter r)); try contradiction; reflexivity.
Qed.

Lemma send_failure_leaves_others s r u msg :
  isConnected s = true ->
  others_untouched (choose_id r u) (nextTimer s) (nextPromise s) s
    (sendRequest r u (Some msg) s).
Proof.
  intros L. unfold sendRequest. rewrite L. simpl.
  rewrite (executor_live _ _ _ _ _ L). simpl. repeat split.
  - intros k Hk. simpl.
    rewrite PMapFacts.get_delete_other by congruence.
    apply PMapFacts.get_set_other. congruence.
  - intros tm Hin Hne. simpl. apply In_disarm_other; [|exact Hne].
    apply in_or_app. now left.
  - intros q Hq.
    erewrite added_app by (simpl; rewrite <- !app_assoc; reflexivity).
    unfold settle_count. simpl.
    destruct (Nat.eqb_spec q (nextPromise s)); [contradiction | reflexivity].
Qed.

Lemma timeout_drains_others s t tm :
  wf s ->
  find (fun x => Nat.eqb t (timer_id x)) (timers s) = Some tm ->
  PMap.has (timer_request tm) (pendingRequests s) = true ->
  pendingRequests (fire t s) = [] /\
  forall id r, In (id, r) (pendingRequests s) -> id <> timer_request tm ->
    In (ClearTimeout (timeout r)) (added s (fire t s)) /\
    In (Rejected (waiter r) connection_closed) (added s (fire t s)).
Proof.
  intros Hwf Hf Hh.
  assert (Hwf1 : wf (timed_out_state t tm s)).
  { intros E. simpl in E. simpl. now rewrite (Hwf E). }
  split.
  { rewrite (fire_pending t tm s Hf Hh). now apply reconnect_pending. }
  intros id r Hin Hne. rewrite (fire_pending_added t tm s Hf Hh).
  set (s1 := timed_out_state t tm s).
  rewrite (added_app _ _ _ (disconnect_trace s1)).
  destruct (ws s) as [w|] eqn:E.
  - assert (E1 : ws s1 = Some w) by exact E. rewrite E1.
    assert (Hin1 : In (id, r) (pendingRequests s1)).
    { simpl. apply PMapFacts.In_delete. split; [exact Hin | simpl; congruence]. }
    destruct (In_drained id r _ Hin1) as [H1 H2].
    split; right; apply in_or_app; left; apply in_or_app; right; assumption.
  - rewrite (Hwf E) in Hin. destruct Hin.
Qed.

(** C2, amended.  An error reply for a pending identifier, and a send that
    raises on a live connection, touch only their own request: every entry
    under another identifier, every other armed timer and every other
    promise is left as it was.  A timeout is different by design: its
    handler reconnects, and the disconnect in it clears the timer of every
    other pending entry, rejects its waiter with 'Connection closed' and
    leaves the table empty. *)
Theorem failure_and_other_requests (s : State) :
  reachable s ->
  (forall response id r,
     prop response "id" = Some (JStr id) -> id <> EmptyString ->
     PMap.get id (pendingRequests s) = Some r ->
     others_untouched id (timeout r) (waiter r) s
       (fst (handleMessage (Some response) s))) /\
  (forall r u msg,
     isConnected s = true ->
     others_untouched (choose_id r u) (nextTimer s) (nextPromise s) s
       (sendRequest r u (Some msg) s)) /\
  (forall t tm,
     find (fun x => Nat.eqb t (timer_id x)) (timers s) = Some tm ->
     PMap.has (timer_request tm) (pendingRequests s) = true ->
     pendingRequests (fire t s) = [] /\
     forall id r, In (id, r) (pendingRequests s) -> id <> timer_request tm ->
       In (ClearTimeout (timeout r)) (added s (fire t s)) /\
       In (Rejected (waiter r)
             (mkError CONNECTION (JStr "Connection closed") JUndefined))
          (added s (fire t s))).
Proof.
  intros Hr. split; [|split].
  - apply reply_leaves_others.
  - apply send_failure_leaves_others.
  - intros t tm. apply timeout_drains_others. now apply reachable_wf.
Qed.

Lemma failure_and_other_requests_witness :
  reachable two_pending /\
  others_untouched "A" 0 0 two_pending
    (fst (handleMessage (Some (reply_error "A" "boom")) two_pending)) /\
  pendingRequests (fire 0 two_pending) = [].
Proof.
  assert (Hr : reachable two_pending) by (eexists; reflexivity).
  destruct (failure_and_other_requests two_pending Hr) as (H1 & _ & H3).
  split; [exact Hr|]. split.
  - apply (H1 (reply_error "A" "boom") "A" (mkPending 0 0));
      [reflexivity | discriminate | vm_compute; reflexivity].
  - assert (Hf : find (fun x => Nat.eqb 0 (timer_id x)) (timers two_pending) =
                  Some (mkTimer 0 REQUEST_TIMEOUT "A" 0))
      by (vm_compute; reflexivity).
    assert (Hh : PMap.has (timer_request (mkTimer 0 REQUEST_TIMEOUT "A" 0))
                   (pendingRequests two_pending) = true)
      by (vm_compute; reflexivity).
    destruct (H3 0 (mkTimer 0 REQUEST_TIMEOUT "A" 0) Hf Hh) as [E _]. exact E.
Defined.

(** ** The invariant of the table, the timers and the promises *)

Lemma NoDup_map_filter {A B} (f : A -> B) (g : A -> bool) (l : list A) :
  NoDup (List.map f l) -> NoDup (List.map f (filter g l)).
Proof.
  induction l as [|a l IH]; simpl; intros H; [exact H|].
  inversion H as [|? ? Hn Hd]; subst. destruct (g a); simpl; auto.
  apply NoDup_cons; auto. intros Hin. apply Hn.
  apply in_map_iff in Hin as [x [<- Hx]]. apply in_map.
  now apply filter_In in Hx.
Qed.

Lemma NoDup_map_inj {A B} (f : A -> B) (l : list A) a b :
  NoDup (List.map f l) -> In a l -> In b l -> f a = f b -> a = b.
Proof.
  induction l as [|x l IH]; simpl; intros H Ha Hb E; [destruct Ha|].
  inversion H as [|? ? Hn Hd]; subst.
  destruct Ha as [->|Ha], Hb as [->|Hb]; auto.
  - destruct Hn. rewrite E. now apply in_map.
  - destruct Hn. rewrite <- E. now apply in_map.
Qed.

Lemma held_shrinks s s' p :
  (forall kv, In kv (pendingRequests s') -> In kv (pendingRequests s)) ->
  (forall tm, In tm (timers s') -> In tm (timers s)) ->
  held p s' -> held p s.
Proof.
  intros Hp Ht [[kv [Hin E]]|[tm [Hin E]]]; [left|right]; eauto.
Qed.

(** The general step: entries and timers are only removed, no call is
    suspended, and the promises settled on the way ([extra]) had not been
    settled and are neither held nor suspended afterwards. *)
Lemma inv_shrink s s' (extra : nat -> nat) :
  inv s -> bounded s' -> calm s' ->
  (forall kv, In kv (pendingRequests s') -> In kv (pendingRequests s)) ->
  NoDup (PMap.keys (pendingRequests s')) ->
  (forall tm, In tm (timers s') -> In tm (timers s)) ->
  NoDup (List.map timer_id (timers s')) ->
  NoDup (List.map timer_waiter (timers s')) ->
  (forall k r, In (k, r) (pendingRequests s') -> In (guard_of k r) (timers s')) ->
  (forall p, In p (awaited_promises (awaiting s')) ->
     In p (awaited_promises (awaiting s))) ->
  nextPromise s <= nextPromise s' ->
  (forall p, settle_count p (trace s') = settle_count p (trace s) + extra p) ->
  (forall p, extra p <= 1) ->
  (forall p, extra p = 1 ->
     ~ held p s' /\ ~ In p (awaited_promises (awaiting s')) /\
     settle_count p (trace s) = 0 /\ p < nextPromise s') ->
  inv s'.
Proof.
  intros [Hb Hcalm Hk Hi Hw Hg Ho Hd Ha Hf] Hb' Hc' Hps Hk' Hts Hi' Hw' Hg' Haw
    Hnp Hc He Hx.
  assert (Hheld : forall p, held p s' -> held p s)
    by (intros p; now apply held_shrinks).
  split; auto.
  - intros p. rewrite Hc. pose proof (He p). pose proof (Ho p).
    destruct (Nat.eq_dec (extra p) 1) as [E|E]; [|lia].
    destruct (Hx p E) as (_ & _ & Z & _). lia.
  - intros p Hh. rewrite Hc, (Hd p (Hheld p Hh)). pose proof (He p).
    destruct (Nat.eq_dec (extra p) 1) as [E|E]; [|lia].
    destruct (Hx p E) as (Hn & _). contradiction.
  - intros p Hp. rewrite Hc, (Ha p (Haw p Hp)). pose proof (He p).
    destruct (Nat.eq_dec (extra p) 1) as [E|E]; [|lia].
    destruct (Hx p E) as (_ & Hn & _). contradiction.
  - intros p Hle. rewrite Hc, (Hf p) by lia. pose proof (He p).
    destruct (Nat.eq_dec (extra p) 1) as [E|E]; [|lia].
    destruct (Hx p E) as (_ & _ & _ & Hlt). lia.
Qed.

(** The same for a step that leaves the counters and the suspended calls
    alone and settles only promises that were held. *)
Lemma inv_narrows s s' (extra : nat -> nat) :
  inv s -> narrows s s' ->
  NoDup (PMap.keys (pendingRequests s')) ->
  NoDup (List.map timer_id (timers s')) ->
  NoDup (List.map timer_waiter (timers s')) ->
  (forall k r, In (k, r) (pendingRequests s') -> In (guard_of k r) (timers s')) ->
  (forall p, settle_count p (trace s') = settle_count p (trace s) + extra p) ->
  (forall p, extra p <= 1) ->
  (forall p, extra p = 1 -> ~ held p s' /\ held p s) ->
  inv s'.
Proof.
  intros H Hn Hk Hi Hw Hg Hc He Hx.
  pose proof (inv_bounded s H) as Hb. pose proof (inv_calm s H) as Hcalm.
  apply (inv_shrink s s' extra H); auto.
  - now apply (bounded_narrows s).
  - now apply (calm_narrows s).
  - apply Hn.
  - apply Hn.
  - now rewrite (nr_awaiting _ _ Hn).
  - rewrite (nr_nextPromise _ _ Hn). lia.
  - intros p E. destruct (Hx p E) as [Hnh Hh]. split; [exact Hnh|].
    rewrite (nr_awaiting _ _ Hn), (nr_nextPromise _ _ Hn). split; [|split].
    + intros Hp. destruct Hh as [[kv [Hin Ew]]|[tm [Hin Ew]]].
      * now apply (cl_pending _ Hcalm p kv).
      * now apply (cl_timers _ Hcalm p tm).
    + now apply (inv_done s H).
    + destruct Hh as [[kv [Hin <-]]|[tm [Hin <-]]].
      * apply (bd_pending _ Hb kv Hin).
      * apply (bd_timers _ Hb tm Hin).
Qed.

(** Nothing changes but the socket, its handlers and connection timeouts,
    and effects that settle nothing. *)
Lemma inv_quiet s s' :
  inv s -> narrows s s' ->
  pendingRequests s' = pendingRequests s -> timers s' = timers s ->
  (forall p, settle_count p (trace s') = settle_count p (trace s)) ->
  inv s'.
Proof.
  intros H Hn Hp Ht Hc.
  apply (inv_narrows s s' (fun _ => 0) H Hn); rewrite ?Hp, ?Ht;
    auto; try apply H.
  - intros p. rewrite Hc. lia.
  - intros p E. discriminate.
Qed.

Lemma settle_count_quiet p es :
  (forall e, In e es -> settles p e = false) -> settle_count p es = 0.
Proof.
  intros H. unfold settle_count. induction es as [|e es IH]; [reflexivity|].
  simpl. rewrite (H e) by now left. apply IH. intros x Hx. apply H. now right.
Qed.

Lemma inv_emit_quiet es s :
  inv s -> (forall e p, In e es -> settles p e = false) -> inv (emit es s).
Proof.
  intros H Hq. apply (inv_quiet s); auto using narrows_emit. intros p. simpl.
  rewrite settle_count_app, (settle_count_quiet p es); [lia|].
  intros e He. now apply Hq.
Qed.

Lemma inv_set_ws w s : inv s -> inv (set_ws w s).
Proof. intros H. apply (inv_quiet s); auto using narrows_set_ws. Qed.

Lemma inv_set_readyState rs s : inv s -> inv (set_readyState rs s).
Proof. intros H. unfold set_readyState. destruct (ws s); auto using inv_set_ws. Qed.

Lemma inv_clearConnectionTimeout c s : inv s -> inv (clearConnectionTimeout c s).
Proof.
  intros H. apply (inv_quiet s); auto using narrows_clearConnectionTimeout.
Qed.

Lemma inv_open_socket l s : inv s -> inv (open_socket l s).
Proof. intros H. apply (inv_quiet s); auto using narrows_open_socket. Qed.

Lemma settle_count_one p e :
  settle_count p [e] = if settles p e then 1 else 0.
Proof. unfold settle_count. simpl. now destruct (settles p e). Qed.

(** An entry of the table is settled: its timeout is cleared, it is
    deleted, and [eff] resolves or rejects its waiter. *)
Lemma inv_settle_entry k r eff s :
  inv s -> In (k, r) (pendingRequests s) ->
  (forall p, settles p eff = Nat.eqb p (waiter r)) ->
  inv (emit [eff] (pdelete k (clearTimeout (timeout r) s))).
Proof.
  intros H Hin Heff.
  pose proof (inv_guard s H k r Hin) as Hg.
  apply (inv_narrows s _ (fun p => if Nat.eqb p (waiter r) then 1 else 0) H);
    simpl; auto.
  - eapply narrows_trans; [apply narrows_clearTimeout|].
    eapply narrows_trans; [apply narrows_pdelete | apply narrows_emit].
  - apply PMapFacts.keys_delete, H.
  - apply NoDup_map_filter, H.
  - apply NoDup_map_filter, H.
  - intros k' r' Hkv. apply PMapFacts.In_delete in Hkv as [Hkv Hne].
    simpl in Hne. pose proof (inv_guard s H k' r' Hkv) as Hg'.
    apply In_disarm_other; [exact Hg'|]. simpl. intros E.
    assert (X : guard_of k' r' = guard_of k r).
    { apply (NoDup_map_inj timer_id (timers s)); auto; apply H. }
    injection X as _ X _. contradiction.
  - intros p. rewrite !settle_count_app, !settle_count_one, Heff. simpl. lia.
  - intros p. destruct (Nat.eqb p (waiter r)); lia.
  - intros p. destruct (Nat.eqb_spec p (waiter r)) as [->|]; [intros _|discriminate].
    split.
    + intros [[[k' r'] [Hkv E]]|[tm [Htm E]]]; simpl in *.
      * apply PMapFacts.In_delete in Hkv as [Hkv Hne]. simpl in Hne.
        pose proof (inv_guard s H k' r' Hkv) as Hg'.
        assert (X : guard_of k' r' = guard_of k r).
        { apply (NoDup_map_inj timer_waiter (timers s)); auto; apply H. }
        injection X as _ X _. contradiction.
      * unfold disarm in Htm. apply filter_In in Htm as [Htm Hne].
        assert (X : tm = guard_of k r).
        { apply (NoDup_map_inj timer_waiter (timers s)); auto; apply H. }
        subst tm. simpl in Hne. now rewrite Nat.eqb_refl in Hne.
    + left. exists (k, r). auto.
Qed.

Lemma inv_reject_all es s :
  inv s -> NoDup (PMap.keys es) ->
  (forall e, In e es -> In e (pendingRequests s)) ->
  inv (reject_all es s).
Proof.
  revert s. induction es as [|[k r] es IH]; intros s H Hnd Hsub; simpl; [exact H|].
  inversion Hnd as [|? ? Hn Hd]; subst.
  apply IH; [|exact Hd|].
  - apply (inv_settle_entry k r (Rejected (waiter r) connection_closed) s H).
    + apply Hsub. now left.
    + intros p. reflexivity.
  - intros [k' r'] He. simpl. apply PMapFacts.In_delete. split.
    + apply Hsub. now right.
    + simpl. intros ->. apply Hn. unfold PMap.keys.
      now apply (in_map fst _ (k, r')).
Qed.

Lemma inv_disconnect s : inv s -> inv (disconnect s).
Proof.
  intros H. destruct (ws s) as [w|] eqn:E.
  - rewrite (disconnect_some s w E).
    destruct (closing_fields w s) as (Hp & Ht & Hnt & Hnp & Htr).
    assert (Hc : inv (closing w s)).
    { apply (inv_quiet s); auto using narrows_closing. intros p.
      rewrite Htr, settle_count_app, (settle_count_quiet p (closes w)); [lia|].
      intros e He. unfold closes in He.
      destruct (readyState w); simpl in He;
        repeat (destruct He as [<-|He]; [reflexivity|]); destruct He. }
    apply inv_reject_all; [exact Hc | apply H | rewrite Hp; auto].
  - unfold disconnect. now rewrite E.
Qed.

Lemma inv_connect_begin c s : inv s -> inv (connect_begin c s).
Proof.
  intros H. unfold connect_begin. destruct (isConnected s); [exact H|].
  apply inv_emit_quiet; [apply inv_open_socket, inv_disconnect, H|].
  intros e p [<-|[]]. reflexivity.
Qed.

Lemma inv_reconnect s : inv s -> inv (reconnect s).
Proof. intros H. apply inv_connect_begin, inv_disconnect, H. Qed.

Lemma inv_handleMessage parsed s : inv s -> inv (fst (handleMessage parsed s)).
Proof.
  intros H. destruct (routed parsed s) eqn:R.
  - unfold routed in R. destruct parsed as [response|]; [|discriminate].
    destruct (prop response "id") as [id|] eqn:Hid; [|discriminate].
    apply andb_true_iff in R as [Ht Hh].
    destruct id; simpl in Hh; try discriminate.
    apply PMapFacts.has_get in Hh as [r Hr].
    rewrite (handleMessage_hit response (JStr s0) r s Hid Ht Hr). simpl.
    apply inv_settle_entry; [exact H | now apply PMapFacts.get_In |].
    intros p. unfold reply_settlement.
    destruct (truthy (field response "error")); reflexivity.
  - now rewrite (handleMessage_miss parsed s R).
Qed.

Lemma inv_fire t s : inv s -> inv (fire t s).
Proof.
  intros H. unfold fire.
  destruct (find _ (timers s)) as [tm|] eqn:F; [|exact H].
  apply find_some in F as [Hin Ht]. apply Nat.eqb_eq in Ht. subst t.
  unfold timeout_handler. apply inv_reconnect.
  set (k := timer_request tm). set (w := timer_waiter tm).
  assert (Hguard : forall k' r', In (k', r') (pendingRequests s) ->
            timeout r' = timer_id tm -> k' = k).
  { intros k' r' Hkv E.
    assert (X : guard_of k' r' = tm).
    { apply (NoDup_map_inj timer_id (timers s));
        [apply H | apply (inv_guard s H), Hkv | exact Hin | exact E]. }
    unfold k. now rewrite <- X. }
  simpl. destruct (PMap.has k (pendingRequests s)) eqn:Hh.
  - apply (inv_narrows s _ (fun p => if Nat.eqb p w then 1 else 0) H);
      simpl; auto.
    + eapply narrows_trans; [apply narrows_disarm|].
      eapply narrows_trans; [apply narrows_pdelete | apply narrows_emit].
    + apply PMapFacts.keys_delete, H.
    + apply NoDup_map_filter, H.
    + apply NoDup_map_filter, H.
    + intros k' r' Hkv. apply PMapFacts.In_delete in Hkv as [Hkv Hne].
      simpl in Hne. apply In_disarm_other; [now apply (inv_guard s H)|].
      simpl. intros E. apply Hne. now apply (Hguard k' r').
    + intros p. rewrite settle_count_app, settle_count_one. reflexivity.
    + intros p. destruct (Nat.eqb p w); lia.
    + intros p. destruct (Nat.eqb_spec p w) as [->|]; [intros _|discriminate].
      split.
      * intros [[[k' r'] [Hkv E]]|[x [Hx E]]]; simpl in *.
        -- apply PMapFacts.In_delete in Hkv as [Hkv Hne]. simpl in Hne.
           assert (X : guard_of k' r' = tm).
           { apply (NoDup_map_inj timer_waiter (timers s));
               [apply H | apply (inv_guard s H), Hkv | exact Hin | exact E]. }
           apply Hne. unfold k. now rewrite <- X.
        -- unfold disarm in Hx. apply filter_In in Hx as [Hx Hne].
           assert (X : x = tm).
           { apply (NoDup_map_inj timer_waiter (timers s));
               [apply H | exact Hx | exact Hin | exact E]. }
           subst x. now rewrite Nat.eqb_refl in Hne.
      * right. exists tm. auto.
  - apply (inv_narrows s _ (fun _ => 0) H); simpl; auto; try apply H.
    + apply narrows_disarm.
    + apply NoDup_map_filter, H.
    + apply NoDup_map_filter, H.
    + intros k' r' Hkv. apply In_disarm_other; [now apply (inv_guard s H)|].
      simpl. intros E. rewrite (Hguard k' r' Hkv E) in Hkv.
      apply PMapFacts.In_has in Hkv. congruence.
    + intros p E. discriminate.
Qed.

Lemma disarm_fresh t ts :
  (forall tm, In tm ts -> timer_id tm < t) -> disarm t ts = ts.
Proof.
  intros H. unfold disarm. induction ts as [|a ts IH]; [reflexivity|].
  simpl. destruct (Nat.eqb_spec t (timer_id a)) as [E|E].
  - pose proof (H a (or_introl eq_refl)). lia.
  - simpl. f_equal. apply IH. intros x Hx. apply H. now right.
Qed.

Lemma NoDup_map_snoc {A} (f : A -> nat) (l : list A) a :
  NoDup (List.map f l) -> (forall x, In x l -> f x <> f a) ->
  NoDup (List.map f (l ++ [a])).
Proof.
  intros Hnd Hne. rewrite map_app. simpl.
  apply NoDup_app; [exact Hnd | apply NoDup_cons; [intros [] | apply NoDup_nil] |].
  intros y Hy [<-|[]]. apply in_map_iff in Hy as [x [E Hx]].
  now apply (Hne x Hx).
Qed.

Lemma disarm_snoc t ms k p ts :
  (forall tm, In tm ts -> timer_id tm < t) ->
  disarm t (ts ++ [mkTimer t ms k p]) = ts.
Proof.
  intros H. unfold disarm. rewrite filter_app. fold (disarm t ts).
  rewrite (disarm_fresh t ts H). simpl. rewrite Nat.eqb_refl. simpl.
  apply app_nil_r.
Qed.

(** The promise of the running call is settled. *)
Lemma inv_settle_free p eff s :
  inv s -> free p s ->
  (forall q, settles q eff = Nat.eqb q p) ->
  inv (emit [eff] s).
Proof.
  intros H (Hlt & Hz & Hnh & Hna) Heff.
  apply (inv_shrink s _ (fun q => if Nat.eqb q p then 1 else 0) H);
    simpl; auto; try apply H.
  - destruct (inv_bounded s H) as [P T]. split; auto.
  - destruct (inv_calm s H) as [X O P T N]. split; auto.
  - intros q. rewrite settle_count_app, settle_count_one, Heff. reflexivity.
  - intros q. destruct (Nat.eqb q p); lia.
  - intros q. destruct (Nat.eqb_spec q p) as [->|]; [intros _|discriminate].
    auto.
Qed.

(** The executor of [sendRequest], run for the promise of the running
    call. *)
Lemma inv_executor id m p st s :
  inv s -> free p s -> inv (sendRequest_executor id m p st s).
Proof.
  intros H Hfree. pose proof Hfree as (Hlt & Hz & Hnh & Hna).
  pose proof (bounded_executor id m p st s (inv_bounded s H) Hlt) as Hb'.
  pose proof (calm_executor id m p st s (inv_calm s H) Hna) as Hc'.
  destruct (isConnected s) eqn:L.
  2:{ rewrite (executor_not_live _ _ _ _ _ L).
      apply (inv_settle_free p); auto; intros q; reflexivity. }
  rewrite (executor_live _ _ _ _ _ L) in *.
  pose proof (inv_bounded s H) as [P T].
  assert (Hfresh : forall tm, In tm (timers s) -> timer_id tm < nextTimer s).
  { intros tm Htm. now destruct (T tm Htm). }
  assert (Hnew : forall tm, In tm (timers s) -> timer_waiter tm <> p).
  { intros tm Htm E. apply Hnh. right. eauto. }
  assert (Hnewp : forall kv, In kv (pendingRequests s) -> waiter (snd kv) <> p).
  { intros kv Hkv E. apply Hnh. left. eauto. }
  destruct st as [msg|]; simpl in *.
  - (* the send raised: the entry and the timer are taken back *)
    apply (inv_shrink s _ (fun q => if Nat.eqb q p then 1 else 0) H);
      simpl; rewrite ?(disarm_snoc _ _ _ _ _ Hfresh); auto; try apply H.
    + intros kv Hkv. apply PMapFacts.In_delete in Hkv as [Hkv Hne].
      apply In_set in Hkv as [->|Hkv]; [now destruct Hne | exact Hkv].
    + apply PMapFacts.keys_delete, PMapFacts.keys_set, H.
    + intros k r Hkv. apply PMapFacts.In_delete in Hkv as [Hkv Hne].
      apply In_set in Hkv as [[= -> ->]|Hkv]; [now destruct Hne|].
      now apply (inv_guard s H).
    + intros q. rewrite !settle_count_app, !settle_count_one. simpl. lia.
    + intros q. destruct (Nat.eqb q p); lia.
    + intros q. destruct (Nat.eqb_spec q p) as [->|]; [intros _|discriminate].
      split; [|auto].
      intros [[kv [Hkv E]]|[tm [Htm E]]]; simpl in *.
      * apply PMapFacts.In_delete in Hkv as [Hkv Hne].
        apply In_set in Hkv as [->|Hkv]; [now destruct Hne|].
        now apply (Hnewp kv).
      * rewrite (disarm_snoc _ _ _ _ _ Hfresh) in Htm. now apply (Hnew tm).
  - (* the request is registered and sent *)
    split; simpl; auto.
    + apply PMapFacts.keys_set, H.
    + apply NoDup_map_snoc; [apply H|].
      intros x Hx. simpl. pose proof (Hfresh x Hx). lia.
    + apply NoDup_map_snoc; [apply H | exact Hnew].
    + intros k r Hkv. apply in_or_app.
      apply In_set in Hkv as [[= -> ->]|Hkv]; [right; now left | left].
      now apply (inv_guard s H).
    + intros q. rewrite !settle_count_app, !settle_count_one. simpl.
      pose proof (inv_once s H q). lia.
    + intros q Hq. rewrite !settle_count_app, !settle_count_one. simpl.
      assert (E : settle_count q (trace s) = 0); [|lia].
      destruct Hq as [[kv [Hkv E]]|[tm [Htm E]]]; simpl in *.
      * apply In_set in Hkv as [->|Hkv].
        -- simpl in E. now subst q.
        -- apply (inv_done s H). left. eauto.
      * apply in_app_or in Htm as [Htm|[<-|[]]].
        -- apply (inv_done s H). right. eauto.
        -- simpl in E. now subst q.
    + intros q Hq. rewrite !settle_count_app, !settle_count_one. simpl.
      rewrite (inv_awaited s H q Hq). reflexivity.
    + intros q Hq. rewrite !settle_count_app, !settle_count_one. simpl.
      rewrite (inv_future s H q) by lia. reflexivity.
Qed.

Lemma inv_sendRequest_resume r u st p failed s :
  inv s -> free p s -> inv (sendRequest_resume r u st p failed s).
Proof.
  intros H Hf. unfold sendRequest_resume. destruct failed as [e|].
  - apply (inv_settle_free p); auto; intros q; reflexivity.
  - now apply inv_executor.
Qed.

(** A call leaves the list of the suspended calls. *)
Lemma inv_set_awaiting_filter f s :
  inv s -> inv (set_awaiting (filter f (awaiting s)) s).
Proof.
  intros H. destruct H as [Hb Hc Hk Hi Hw Hg Ho Hd Ha Hf].
  split; auto.
  - destruct Hb as [P T]. split; auto.
  - now apply calm_set_awaiting_filter.
  - intros p Hp. apply Ha. revert Hp. apply awaited_promises_filter.
Qed.

Lemma inv_settle c failed s : inv s -> inv (settle c failed s).
Proof.
  intros H. unfold settle.
  destruct (find _ (awaiting s)) as [[c' k]|] eqn:F; [|exact H].
  pose proof (inv_set_awaiting_filter
                (fun a => negb (Nat.eqb c (fst a))) s H) as H2.
  destruct k as [r u st p|]; simpl.
  - apply inv_sendRequest_resume; [exact H2|].
    assert (Hp : In p (awaited_promises (awaiting s))).
    { apply find_some in F as [Hin _]. unfold awaited_promises.
      apply in_flat_map. exists (c', ResumeSendRequest r u st p).
      split; [exact Hin | now left]. }
    pose proof (inv_calm s H) as Hc.
    split; [|split; [|split]]; simpl.
    + now apply (cl_exists _ Hc).
    + now apply (inv_awaited s H).
    + intros [[kv [Hin E]]|[tm [Hin E]]].
      * now apply (cl_pending _ Hc p kv).
      * now apply (cl_timers _ Hc p tm).
    + apply (resumed_not_awaited c c' r u st p); [apply Hc | exact F].
  - destruct failed; [now apply inv_disconnect | exact H2].
Qed.

Lemma inv_suspend_start c s :
  inv s -> c < nextConnect s -> inv (suspend c ResumeStart s).
Proof.
  intros H Hc. destruct (sane_suspend_start c s
                           (conj (inv_bounded s H) (inv_calm s H)) Hc) as [B C].
  destruct H as [Hb Hcalm Hk Hi Hw Hg Ho Hd Ha Hf]. split; auto.
  intros p Hp. apply Ha. simpl in Hp.
  rewrite awaited_promises_app in Hp. simpl in Hp. now rewrite app_nil_r in Hp.
Qed.

Lemma inv_suspend_sendRequest c r u st s :
  inv s -> c < nextConnect s ->
  inv (next_promise (suspend c (ResumeSendRequest r u st (nextPromise s)) s)).
Proof.
  intros H Hc. destruct (sane_suspend_sendRequest c r u st s
                           (conj (inv_bounded s H) (inv_calm s H)) Hc) as [B C].
  destruct H as [Hb Hcalm Hk Hi Hw Hg Ho Hd Ha Hf]. split; auto.
  - intros p Hp. simpl in Hp. rewrite awaited_promises_app in Hp.
    apply in_app_or in Hp as [Hp|[<-|[]]]; [now apply Ha | now apply Hf].
  - intros p Hp. simpl in Hp. apply Hf. lia.
Qed.

Lemma inv_start c s : inv s -> inv (start c s).
Proof.
  intros H. unfold start. destruct (isConnected s) eqn:E; [exact H|].
  apply inv_suspend_start; [now apply inv_connect_begin|].
  rewrite (connect_begin_nextConnect _ _ E). lia.
Qed.

Lemma inv_next_promise s : inv s -> inv (next_promise s).
Proof.
  intros H. destruct H as [Hb Hcalm Hk Hi Hw Hg Ho Hd Ha Hf]. split; auto.
  - now apply bounded_next_promise.
  - now apply calm_next_promise.
  - intros p Hp. simpl in Hp. apply Hf. lia.
Qed.

Lemma executor_next_promise id m p st s :
  next_promise (sendRequest_executor id m p st s) =
  sendRequest_executor id m p st (next_promise s).
Proof.
  unfold sendRequest_executor, isConnected. simpl.
  destruct (ws s) as [w|]; [|reflexivity].
  destruct (negb _); [reflexivity|]. now destruct st.
Qed.

Lemma inv_sendRequest r u st s : inv s -> inv (sendRequest r u st s).
Proof.
  intros H. unfold sendRequest. destruct (isConnected s) eqn:E; simpl.
  - rewrite executor_next_promise. apply inv_executor; [now apply inv_next_promise|].
    pose proof (inv_bounded s H) as [P T].
    split; [|split; [|split]]; simpl.
    + lia.
    + now apply (inv_future s H).
    + intros [[kv [Hin Ew]]|[tm [Hin Ew]]].
      * destruct (P kv Hin). lia.
      * destruct (T tm Hin). lia.
    + intros Hp. pose proof (cl_exists _ (inv_calm s H) _ Hp). lia.
  - rewrite <- (nr_nextPromise _ _ (narrows_connect_begin None s)).
    apply inv_suspend_sendRequest; [now apply inv_connect_begin|].
    rewrite (connect_begin_nextConnect _ _ E). lia.
Qed.

Lemma inv_exec ev s : inv s -> inv (exec ev s).
Proof.
  intros H. destruct ev; simpl;
    auto using inv_start, inv_connect_begin, inv_disconnect, inv_reconnect,
      inv_sendRequest, inv_fire, inv_set_readyState.
  - destruct (ws s) as [w|]; [|exact H]. destruct (handlers s); [|exact H].
    destruct (readyState w); auto.
    now apply inv_settle, inv_clearConnectionTimeout, inv_set_readyState.
  - destruct (ws s); [now apply inv_handleMessage | exact H].
  - destruct (ws s) as [w|]; [|exact H]. destruct (handlers s); [|exact H].
    now apply inv_settle, inv_disconnect, inv_clearConnectionTimeout,
      inv_set_readyState.
  - destruct (ws s); auto using inv_disconnect, inv_set_readyState.
  - destruct (existsb _ _); [|exact H].
    pose proof (inv_clearConnectionTimeout c s H) as H0.
    simpl. destruct (ws s) as [w|]; [|exact H0].
    destruct (readyState w); auto.
    now apply inv_settle, inv_disconnect.
Qed.

Lemma inv_init : inv init.
Proof.
  split.
  - split; intros x [].
  - split; simpl;
      [intros p [] | apply NoDup_nil | intros p kv [] | intros p tm []
      | intros a []].
  - apply NoDup_nil.
  - apply NoDup_nil.
  - apply NoDup_nil.
  - intros k r [].
  - intros p. unfold settle_count. simpl. lia.
  - intros p [[kv [[] _]]|[tm [[] _]]].
  - intros p [].
  - intros p _. reflexivity.
Qed.

Lemma reachable_inv s : reachable s -> inv s.
Proof.
  intros [evs ->]. generalize inv_init. generalize init.
  induction evs as [|ev evs IH]; intros s H; simpl; [exact H|].
  apply IH, inv_exec, H.
Qed.

(** ** A connect that was superseded *)

(** A call that goes on leaves the suspended calls, the handlers and the
    connection timeouts as they are. *)
Lemma sendRequest_resume_frame r u st p failed s :
  let s' := sendRequest_resume r u st p failed s in
  awaiting s' = awaiting s /\ handlers s' = handlers s /\
  connectionTimeouts s' = connectionTimeouts s /\
  nextConnect s' = nextConnect s.
Proof.
  unfold sendRequest_resume. destruct failed as [e|]; [now simpl|].
  destruct (isConnected s) eqn:L.
  - rewrite (executor_live _ _ _ _ _ L). now destruct st.
  - now rewrite (executor_not_live _ _ _ _ _ L).
Qed.

Lemma awaiting_resume k failed s : awaiting (resume k failed s) = awaiting s.
Proof.
  destruct k as [r u st p|]; simpl.
  - apply (proj1 (sendRequest_resume_frame r u st p failed s)).
  - destruct failed; [|reflexivity]. apply (nr_awaiting _ _ (narrows_disconnect s)).
Qed.

Lemma dropped_narrows c s s' : narrows s s' -> dropped c s -> dropped c s'.
Proof.
  intros Hn (L & Hh & Ht). pose proof (nr_nextConnect _ _ Hn) as Hle.
  split; [lia|]. split.
  - destruct (nr_handlers _ _ Hn) as [E|[E|(c' & E & L')]]; rewrite E; auto.
    + discriminate.
    + intros [= ->]. lia.
  - intros Hin. destruct (nr_connectionTimeouts _ _ Hn c Hin); [auto | lia].
Qed.

Lemma dropped_same c s s' :
  handlers s' = handlers s -> connectionTimeouts s' = connectionTimeouts s ->
  nextConnect s' = nextConnect s -> dropped c s -> dropped c s'.
Proof. unfold dropped. now intros -> -> ->. Qed.

Lemma dropped_settle c c' failed s : dropped c s -> dropped c (settle c' failed s).
Proof.
  intros H. unfold settle.
  destruct (find _ (awaiting s)) as [[c0 k]|]; [|exact H].
  set (s2 := set_awaiting _ s).
  assert (H2 : dropped c s2) by exact H.
  destruct k as [r u st p|]; simpl.
  - destruct (sendRequest_resume_frame r u st p failed s2) as (_ & E1 & E2 & E3).
    now apply (dropped_same c s2).
  - destruct failed; [|exact H2].
    apply (dropped_narrows c s2); [apply narrows_disconnect | exact H2].
Qed.

(** What was dropped stays dropped. *)
Lemma dropped_exec c ev s : dropped c s -> dropped c (exec ev s).
Proof.
  intros H.
  assert (Hn : forall s', narrows s s' -> dropped c s')
    by (intros s' Hn; now apply (dropped_narrows c s)).
  destruct ev; simpl.
  - unfold start. destruct (isConnected s); [exact H|].
    apply (dropped_same c (connect_begin clientName s)); auto.
    apply Hn, narrows_connect_begin.
  - apply Hn, narrows_connect_begin.
  - apply Hn, narrows_disconnect.
  - apply Hn, narrows_disconnect.
  - apply Hn, narrows_reconnect.
  - unfold sendRequest. destruct (isConnected s); simpl.
    + destruct (sendRequest_resume_frame request uuid sendThrows (nextPromise s)
                  None s) as (_ & E1 & E2 & E3).
      now apply (dropped_same c s).
    + apply (dropped_same c (connect_begin None s)); auto.
      apply Hn, narrows_connect_begin.
  - destruct (ws s) as [w|]; [|exact H]. destruct (handlers s); [|exact H].
    destruct (readyState w); try exact H.
    apply dropped_settle, Hn.
    eapply narrows_trans;
      [apply narrows_set_readyState | apply narrows_clearConnectionTimeout].
  - destruct (ws s); [|exact H]. apply Hn, narrows_handleMessage.
  - destruct (ws s) as [w|]; [|exact H]. destruct (handlers s); [|exact H].
    apply dropped_settle, Hn.
    eapply narrows_trans; [apply narrows_set_readyState|].
    eapply narrows_trans;
      [apply narrows_clearConnectionTimeout | apply narrows_disconnect].
  - destruct (ws s); [|exact H]. apply Hn.
    eapply narrows_trans; [apply narrows_set_readyState | apply narrows_disconnect].
  - destruct (existsb _ _); [|exact H].
    assert (H0 : dropped c (clearConnectionTimeout c0 s))
      by apply Hn, narrows_clearConnectionTimeout.
    simpl. destruct (ws s) as [w|]; [|exact H0].
    destruct (readyState w); try exact H0.
    apply dropped_settle, Hn.
    eapply narrows_trans;
      [apply narrows_clearConnectionTimeout | apply narrows_disconnect].
  - apply Hn, narrows_set_readyState.
  - apply Hn, narrows_fire.
Qed.

Lemma waits_for_narrows c s s' : narrows s s' -> waits_for c s' = waits_for c s.
Proof. intros Hn. unfold waits_for. now rewrite (nr_awaiting _ _ Hn). Qed.

Lemma waits_for_same c s s' : awaiting s' = awaiting s -> waits_for c s' = waits_for c s.
Proof. unfold waits_for. now intros ->. Qed.

Lemma waits_for_suspend c c' k k' s :
  waits_for c s = Some k -> waits_for c (suspend c' k' s) = Some k.
Proof.
  unfold waits_for, suspend. simpl.
  destruct (find _ (awaiting s)) as [[c0 k0]|] eqn:F; [|discriminate].
  intros [= ->]. induction (awaiting s) as [|a l IH]; [discriminate|].
  simpl in *. destruct (Nat.eqb c (fst a)).
  - now injection F as ->.
  - now apply IH.
Qed.

Lemma find_filter_other c c' (l : list (nat * Continuation)) :
  c <> c' ->
  find (fun a => Nat.eqb c (fst a)) (filter (fun a => negb (Nat.eqb c' (fst a))) l) =
  find (fun a => Nat.eqb c (fst a)) l.
Proof.
  intros H. induction l as [|a l IH]; [reflexivity|]. simpl.
  destruct (Nat.eqb_spec c' (fst a)) as [E|E]; simpl.
  - destruct (Nat.eqb_spec c (fst a)); [congruence | exact IH].
  - now rewrite IH.
Qed.

Lemma waits_for_settle c c' failed s :
  c <> c' -> waits_for c (settle c' failed s) = waits_for c s.
Proof.
  intros H. unfold settle.
  destruct (find _ (awaiting s)) as [[c0 k]|]; [|reflexivity].
  unfold waits_for. rewrite awaiting_resume. simpl.
  now rewrite find_filter_other.
Qed.

(** A call that waits for a dropped promise goes on waiting. *)
Lemma waits_for_exec c k ev s :
  dropped c s -> waits_for c s = Some k -> waits_for c (exec ev s) = Some k.
Proof.
  intros (L & Hh & Ht) Hw.
  assert (Hn : forall s', narrows s s' -> waits_for c s' = Some k)
    by (intros s' Hn; now rewrite (waits_for_narrows c s s' Hn)).
  assert (Hs : forall c' failed s1, c <> c' -> narrows s s1 ->
            waits_for c (settle c' failed s1) = Some k).
  { intros c' failed s1 Hne Hn1. rewrite waits_for_settle by exact Hne. auto. }
  destruct ev; simpl.
  - unfold start. destruct (isConnected s); [exact Hw|].
    apply waits_for_suspend, Hn, narrows_connect_begin.
  - apply Hn, narrows_connect_begin.
  - apply Hn, narrows_disconnect.
  - apply Hn, narrows_disconnect.
  - apply Hn, narrows_reconnect.
  - unfold sendRequest. destruct (isConnected s); simpl.
    + rewrite <- Hw. apply waits_for_same. simpl.
      apply (proj1 (sendRequest_resume_frame request uuid sendThrows
                      (nextPromise s) None s)).
    + exact (waits_for_suspend c (nextConnect s) k
               (ResumeSendRequest request uuid sendThrows (nextPromise s)) _
               (Hn _ (narrows_connect_begin None s))).
  - destruct (ws s) as [w|]; [|exact Hw].
    destruct (handlers s) as [c'|] eqn:E; [|exact Hw].
    destruct (readyState w); try exact Hw.
    apply Hs; [congruence|].
    eapply narrows_trans;
      [apply narrows_set_readyState | apply narrows_clearConnectionTimeout].
  - destruct (ws s); [|exact Hw]. apply Hn, narrows_handleMessage.
  - destruct (ws s) as [w|]; [|exact Hw].
    destruct (handlers s) as [c'|] eqn:E; [|exact Hw].
    apply Hs; [congruence|].
    eapply narrows_trans; [apply narrows_set_readyState|].
    eapply narrows_trans;
      [apply narrows_clearConnectionTimeout | apply narrows_disconnect].
  - destruct (ws s); [|exact Hw]. apply Hn.
    eapply narrows_trans; [apply narrows_set_readyState | apply narrows_disconnect].
  - destruct (existsb _ _) eqn:X; [|exact Hw].
    assert (Hne : c <> c0).
    { intros <-. apply Ht. apply existsb_exists in X as (x & Hx & Ex).
      apply Nat.eqb_eq in Ex. now subst x. }
    assert (H0 : waits_for c (clearConnectionTimeout c0 s) = Some k)
      by apply Hn, narrows_clearConnectionTimeout.
    simpl. destruct (ws s) as [w|]; [|exact H0].
    destruct (readyState w); try exact H0.
    apply Hs; [exact Hne|].
    eapply narrows_trans;
      [apply narrows_clearConnectionTimeout | apply narrows_disconnect].
  - apply Hn, narrows_set_readyState.
  - apply Hn, narrows_fire.
Qed.

(** ** Properties of the connection manager *)

(** X1.  In every state the object can be in, the table of pending requests
    is empty whenever there is no socket: [sendRequest] stores an entry only
    on an open socket, and only [disconnect] drops the socket, rejecting
    every entry as it does. *)
Theorem no_socket_no_pending (s : State) :
  reachable s -> ws s = None -> pendingRequests s = [].
Proof. intros Hr. exact (reachable_wf s Hr). Qed.

Lemma no_socket_no_pending_witness :
  let s := run [OnClose] two_pending in
  reachable s /\ ws s = None /\ pendingRequests s = [].
Proof.
  intros s.
  assert (Hr0 : reachable two_pending) by (eexists; reflexivity).
  assert (Hr : reachable s) by exact (reachable_run [OnClose] two_pending Hr0).
  assert (E : ws s = None) by (vm_compute; reflexivity).
  split; [exact Hr|]. split; [exact E|]. exact (no_socket_no_pending s Hr E).
Defined.

(** X2.  No promise of a [sendRequest] call has its resolve or reject
    called more than once, whatever the calls, replies, timeouts and disconnects,
    and also when identifiers are reused. *)
Theorem promise_settled_at_most_once (s : State) (p : nat) :
  reachable s -> settle_count p (trace s) <= 1.
Proof. intros Hr. apply (inv_once s (reachable_inv s Hr)). Qed.

Lemma promise_settled_at_most_once_witness :
  let evs := same_id_twice ++ [TimerFires 0; TimerFires 1; OnClose] in
  reachable (run evs init) /\ settle_count 0 (trace (run evs init)) <= 1.
Proof.
  intros evs.
  assert (Hr : reachable (run evs init)) by (exists evs; reflexivity).
  split; [exact Hr|]. exact (promise_settled_at_most_once _ 0 Hr).
Defined.

Lemma find_by_id (ts : list Timer) (tm : Timer) :
  NoDup (List.map timer_id ts) -> In tm ts ->
  find (fun x => Nat.eqb (timer_id tm) (timer_id x)) ts = Some tm.
Proof.
  intros Hnd Hin.
  destruct (find (fun x => Nat.eqb (timer_id tm) (timer_id x)) ts)
    as [tm'|] eqn:F.
  - apply find_some in F as [Hin' Hid]. apply Nat.eqb_eq in Hid. f_equal.
    now apply (NoDup_map_inj timer_id ts).
  - apply (find_none _ _ F) in Hin. now rewrite Nat.eqb_refl in Hin.
Qed.

(** X3.  Every entry of the table has its timeout armed, set for
    REQUEST_TIMEOUT and bound to the entry's identifier and waiter; when
    that timeout fires, the waiter's reject is called first, with the
    Timeout error, and the table is left empty. *)
Theorem pending_entry_times_out (s : State) (k : string) (r : PendingRequest) :
  reachable s ->
  In (k, r) (pendingRequests s) ->
  find (fun x => Nat.eqb (timeout r) (timer_id x)) (timers s) =
    Some (mkTimer (timeout r) 10000%Z k (waiter r)) /\
  pendingRequests (fire (timeout r) s) = [] /\
  exists rest,
    added s (fire (timeout r) s) =
    Rejected (waiter r) (mkError TIMEOUT (JStr "Request timed out") JUndefined)
    :: rest.
Proof.
  intros Hr Hin. pose proof (reachable_inv s Hr) as H.
  pose proof (find_by_id (timers s) (guard_of k r) (inv_ids s H)
                (inv_guard s H k r Hin)) as F.
  simpl in F. split; [exact F|].
  assert (Hh : PMap.has (timer_request (guard_of k r)) (pendingRequests s) = true).
  { simpl. apply (PMapFacts.In_has _ _ _ Hin). }
  split.
  - apply (timeout_drains_others s (timeout r) (guard_of k r)
             (reachable_wf s Hr) F Hh).
  - rewrite (fire_pending_added (timeout r) (guard_of k r) s F Hh).
    eexists. reflexivity.
Qed.

Lemma pending_entry_times_out_witness :
  reachable two_pending /\
  In ("B", mkPending 1 1) (pendingRequests two_pending) /\
  pendingRequests (fire 1 two_pending) = [].
Proof.
  assert (Hr : reachable two_pending) by (eexists; reflexivity).
  assert (Hin : In ("B", mkPending 1 1) (pendingRequests two_pending)).
  { assert (E : pendingRequests two_pending =
                  [("A", mkPending 0 0); ("B", mkPending 1 1)])
      by (vm_compute; reflexivity).
    rewrite E. right. now left. }
  split; [exact Hr|]. split; [exact Hin|].
  destruct (pending_entry_times_out two_pending "B" (mkPending 1 1) Hr Hin)
    as (_ & E & _).
  exact E.
Defined.

(** X4.  While a [sendRequest] call waits for [connect], its promise is
    neither resolved nor rejected, and no table entry and no timer holds
    it. *)
Theorem suspended_call_is_pending
  (s : State) (c : nat) (r : Request) (u : string) (st : option string)
  (p : nat) :
  reachable s ->
  waits_for c s = Some (ResumeSendRequest r u st p) ->
  settle_count p (trace s) = 0 /\ ~ held p s.
Proof.
  intros Hr Hw. pose proof (reachable_inv s Hr) as H.
  pose proof (waits_for_awaited _ _ _ _ _ _ Hw) as Hp.
  split; [now apply (inv_awaited s H)|].
  intros [[kv [Hin E]]|[tm [Hin E]]].
  - now apply (cl_pending _ (inv_calm s H) p kv).
  - now apply (cl_timers _ (inv_calm s H) p tm).
Qed.

Lemma suspended_call_is_pending_witness :
  let s := run [CallSendRequest (example_request "A") "u" None] init in
  reachable s /\
  waits_for 0 s = Some (ResumeSendRequest (example_request "A") "u" None 0) /\
  settle_count 0 (trace s) = 0.
Proof.
  intros s.
  assert (Hr : reachable s).
  { exists [CallSendRequest (example_request "A") "u" None]. reflexivity. }
  assert (Hw : waits_for 0 s =
                 Some (ResumeSendRequest (example_request "A") "u" None 0))
    by (vm_compute; reflexivity).
  split; [exact Hr|]. split; [exact Hw|].
  exact (proj1 (suspended_call_is_pending s 0 _ _ _ 0 Hr Hw)).
Defined.

(** X5.  A [sendRequest] call that waits for a promise of [connect] that
    was dropped stays suspended whatever happens afterwards, and its own
    promise is never settled. *)
Theorem dropped_connect_never_settles
  (s : State) (c : nat) (r : Request) (u : string) (st : option string)
  (p : nat) (later : list Event) :
  reachable s -> dropped c s ->
  waits_for c s = Some (ResumeSendRequest r u st p) ->
  waits_for c (run later s) = Some (ResumeSendRequest r u st p) /\
  settle_count p (trace (run later s)) = 0.
Proof.
  intros Hr Hd Hw.
  assert (H : waits_for c (run later s) = Some (ResumeSendRequest r u st p)).
  { clear Hr. revert s Hd Hw.
    induction later as [|ev later IH]; intros s Hd Hw; simpl; [exact Hw|].
    apply IH; [now apply dropped_exec | now apply waits_for_exec]. }
  split; [exact H|].
  pose proof (reachable_inv _ (reachable_run later s Hr)) as Hi.
  apply (inv_awaited _ Hi). now apply (waits_for_awaited c _ r u st p).
Qed.

Lemma dropped_connect_never_settles_witness :
  let s := run superseded_connect init in
  let k := ResumeSendRequest (example_request "A") "u" None 0 in
  let later := [CallReconnect; OnOpen; CallSendRequest (example_request "C") "u" None;
                OnMessage (Some (reply_result "C" JNull)); OnClose] in
  reachable s /\ dropped 0 s /\ waits_for 0 s = Some k /\
  isConnected s = true /\
  waits_for 0 (run later s) = Some k /\
  settle_count 0 (trace (run later s)) = 0.
Proof.
  intros s k later.
  assert (Hr : reachable s) by (eexists; reflexivity).
  assert (Hw : waits_for 0 s = Some k) by (vm_compute; reflexivity).
  assert (Hd : dropped 0 s).
  { assert (E1 : Nat.ltb 0 (nextConnect s) = true) by (vm_compute; reflexivity).
    assert (E2 : handlers s = Some 1) by (vm_compute; reflexivity).
    assert (E3 : connectionTimeouts s = []) by (vm_compute; reflexivity).
    split; [now apply Nat.ltb_lt|]. split.
    - rewrite E2. discriminate.
    - rewrite E3. intros []. }
  split; [exact Hr|]. split; [exact Hd|]. split; [exact Hw|].
  split; [vm_compute; reflexivity|].
  exact (dropped_connect_never_settles s 0 (example_request "A") "u" None 0
           later Hr Hd Hw).
Defined.

(** ** The get_console_logs tool *)

Lemma is_int_spec q :
  GetConsoleLogs.is_int q = true <-> exists n : Z, q == inject_Z n.
Proof.
  unfold GetConsoleLogs.is_int, Qeq. destruct q as [a d]. simpl.
  rewrite Z.eqb_eq. split.
  - intros H. exists (a / Zpos d)%Z.
    pose proof (Z.div_mod a (Zpos d)) as E. rewrite H in E. lia.
  - intros [n H]. rewrite Z.mul_1_r in H. subst a. apply Z.mod_mul. lia.
Qed.

Lemma Qle_bool_inject_l n q m :
  q == inject_Z m -> Qle_bool (inject_Z n) q = true <-> (n <= m)%Z.
Proof.
  intros E. rewrite Qle_bool_iff, E, <- Zle_Qle. reflexivity.
Qed.

Lemma Qle_bool_inject_r n q m :
  q == inject_Z m -> Qle_bool q (inject_Z n) = true <-> (m <= n)%Z.
Proof.
  intros E. rewrite Qle_bool_iff, E, <- Zle_Qle. reflexivity.
Qed.

Lemma limit_schema_spec v :
  GetConsoleLogs.limit_schema v = true <->
  v = JUndefined \/
  exists q n, v = JNum q /\ q == inject_Z n /\ (1 <= n <= 500)%Z.
Proof.
  destruct v; simpl; try (split; [discriminate | intros [H|(q & n & H & _)]; discriminate]).
  - split; auto.
  - rewrite !andb_true_iff, is_int_spec. split.
    + intros [[[n E] H1] H2]. right. exists q, n.
      rewrite (Qle_bool_inject_l 1 q n E) in H1.
      rewrite (Qle_bool_inject_r 500 q n E) in H2. auto.
    + intros [H|(q' & n & [= <-] & E & H1 & H2)]; [discriminate|].
      rewrite (Qle_bool_inject_l 1 q n E), (Qle_bool_inject_r 500 q n E). eauto.
Qed.

Lemma offset_schema_spec v :
  GetConsoleLogs.offset_schema v = true <->
  v = JUndefined \/
  exists q n, v = JNum q /\ q == inject_Z n /\ (0 <= n)%Z.
Proof.
  destruct v; simpl; try (split; [discriminate | intros [H|(q & n & H & _)]; discriminate]).
  - split; auto.
  - rewrite !andb_true_iff, is_int_spec. split.
    + intros [[n E] H1]. right. exists q, n.
      rewrite (Qle_bool_inject_l 0 q n E) in H1. auto.
    + intros [H|(q' & n & [= <-] & E & H1)]; [discriminate|].
      rewrite (Qle_bool_inject_l 0 q n E). eauto.
Qed.

Lemma toolHandler_sent send params log :
  fst (GetConsoleLogs.toolHandler send params log) =
  log ++ [GetConsoleLogs.request_of params].
Proof.
  unfold GetConsoleLogs.toolHandler, GetConsoleLogs.bind,
    GetConsoleLogs.await_sendRequest.
  destruct (send _) as [e|response]; [reflexivity|].
  destruct (prop response "success") as [success|]; [|reflexivity].
  now destruct (negb (truthy success)).
Qed.

(** X6.  The handler of get_console_logs hands exactly one request to
    [sendRequest]; its method is "get_console_logs" and its params carry
    the given logType and, for the fields left out, offset 0, limit 50 and
    includeStackTrace true.  The schema accepts a params object only if its
    limit is absent or a whole number from 1 to 500 and its offset is absent
    or a whole number that is at least 0.  When the response is an object
    or a primitive value whose success field is not truthy, the handler
    throws a ToolExecution error with the response's message, or 'Failed to
    fetch logs from Unity' when there is none. *)
Lemma toolHandler_request_and_failure
  (send : Request -> Thrown + Json) (params : list (string * Json)) :
  let out := GetConsoleLogs.toolHandler send params [] in
  let sent := GetConsoleLogs.request_of params in
  (fst out = [sent] /\
   req_method sent = "get_console_logs" /\
   field (req_params sent) "logType" = lookup_field "logType" params /\
   field (req_params sent) "offset" =
     match lookup_field "offset" params with
     | JUndefined => JNum (inject_Z 0)
     | v => v
     end /\
   field (req_params sent) "limit" =
     match lookup_field "limit" params with
     | JUndefined => JNum (inject_Z 50)
     | v => v
     end /\
   field (req_params sent) "includeStackTrace" =
     match lookup_field "includeStackTrace" params with
     | JUndefined => JBool true
     | v => v
     end) /\
  (GetConsoleLogs.paramsSchema params = true ->
   (lookup_field "limit" params = JUndefined \/
    exists q n, lookup_field "limit" params = JNum q /\
                q == inject_Z n /\ (1 <= n <= 500)%Z) /\
   (lookup_field "offset" params = JUndefined \/
    exists q n, lookup_field "offset" params = JNum q /\
                q == inject_Z n /\ (0 <= n)%Z)) /\
  (forall response success,
     send sent = inr response ->
     prop response "success" = Some success ->
     truthy success = false ->
     snd out =
       inl (ThrownMcp
              (mkError TOOL_EXECUTION
                 (if truthy (field response "message")
                  then field response "message"
                  else JStr "Failed to fetch logs from Unity")
                 JUndefined))).
Proof.
  intros out sent. split; [|split].
  - split; [apply toolHandler_sent|].
    repeat split; simpl; unfold field; simpl.
    + now destruct (lookup_field "offset" params).
    + now destruct (lookup_field "limit" params).
    + now destruct (lookup_field "includeStackTrace" params).
  - unfold GetConsoleLogs.paramsSchema. rewrite !andb_true_iff.
    intros [[[_ Ho] Hl] _]. split.
    + now apply limit_schema_spec.
    + now apply offset_schema_spec.
  - intros response success Hs Hp Ht.
    unfold out, GetConsoleLogs.toolHandler, GetConsoleLogs.bind,
      GetConsoleLogs.await_sendRequest.
    fold sent. rewrite Hs, Hp, Ht. reflexivity.
Qed.

Lemma toolHandler_request_and_failure_witness :
  GetConsoleLogs.paramsSchema [("limit", JNum (inject_Z 500))] = true /\
  snd (GetConsoleLogs.toolHandler
         (fun _ => inr (JObj [("success", JBool false)]))
         [("limit", JNum (inject_Z 500))] []) =
  inl (ThrownMcp
         (mkError TOOL_EXECUTION (JStr "Failed to fetch logs from Unity")
            JUndefined)).
Proof.
  split; [reflexivity|].
  destruct (toolHandler_request_and_failure
              (fun _ => inr (JObj [("success", JBool false)]))
              [("limit", JNum (inject_Z 500))]) as (_ & _ & H).
  exact (H (JObj [("success", JBool false)]) (JBool false)
           eq_refl eq_refl eq_refl).
Defined.

(** C10 at a failing input.  The peer answers the request "A" with a
    message that has no result, or whose result is null, and
    [handleMessage] resolves the waiting call with [undefined] or [null].
    The handler of get_console_logs, which has handed over its one request
    and awaits such a value, reads its success property: a TypeError is
    raised, and not a ToolExecution error with the text 'Failed to fetch
    logs from Unity'. *)
Theorem get_console_logs_null_response (params : list (string * Json)) :
  let sent := GetConsoleLogs.request_of params in
  added one_pending
    (exec (OnMessage (Some (JObj [("id", JStr "A")]))) one_pending) =
    [ClearTimeout 0; Resolved 0 JUndefined] /\
  added one_pending
    (exec (OnMessage (Some (reply_result "A" JNull))) one_pending) =
    [ClearTimeout 0; Resolved 0 JNull] /\
  GetConsoleLogs.toolHandler (fun _ => inr JUndefined) params [] =
    ([sent], inl ThrownTypeError) /\
  GetConsoleLogs.toolHandler (fun _ => inr JNull) params [] =
    ([sent], inl ThrownTypeError).
Proof.
  intros sent. split; [vm_compute; reflexivity|].
  split; [vm_compute; reflexivity|]. split; reflexivity.
Qed.
